(** * BinaryTree.hpp: a shallow embedding of the generic binary tree

    The C++ class [BinaryTree<T>] owns a graph of [Node<T>] objects through
    raw pointers; every node is owned by exactly one parent slot (or by the
    [root] field), and nodes are only ever created by [new] inside the
    class, so two objects never share a node.  The embedding keeps that
    ownership structure:

    - an owning [Node<T>*] slot is a [tree]: [nullptr] or a [Node] with its
      element and the two slots it owns;
    - a pointer that is used to reach a node inside the tree of a
      [BinaryTree] object and to write through it (the queues of [insert],
      [remove] and of the constructors, [deepestParent], [deleteNode]) is
      the address of a slot: the path of left/right steps leading from
      [root] to it; two such pointers alias exactly when the addresses are
      equal;
    - a pointer that is only read through ([bfsearch], [dfsearch],
      [getDepth], [getHeight], the source queue of the constructors) is the
      [tree] it points to;
    - [operator==] on [T] is a decidable equality;
    - loops run on fuel, and an operation hands its loop at least as much
      fuel as it takes on the tree at hand; running out is a separate
      outcome, which the development shows never to happen;
    - dereferencing [nullptr] is the outcome [Fault];
    - [treeSize], [depth] and [height] are C++ [int]s; they are kept in [Z],
      and the development does not consider trees of 2^31 nodes or more. *)

From Stdlib Require Import ZArith Lia List.
From stdpp Require Import base decidable option numbers list strings.
From Stdlib Require Import Ascii.

Set Default Proof Using "Type*".

(** ** Outcomes of an operation *)

Inductive result (A : Type) : Type :=
| Ok (a : A)
| Fault
| OutOfFuel.
Arguments Ok {A} a.
Arguments Fault {A}.
Arguments OutOfFuel {A}.

Definition bind {A B : Type} (m : result A) (k : A -> result B) : result B :=
  match m with
  | Ok a => k a
  | Fault => Fault
  | OutOfFuel => OutOfFuel
  end.

Notation "'do' x <- m ; k" := (bind m (fun x => k))
  (at level 10, x name, m at level 100, k at level 200).

(** ** Nodes, slots and addresses *)

Inductive dir : Type := Left | Right.

#[global] Instance dir_eq_dec : EqDecision dir.
Proof. solve_decision. Defined.

(** The address of a slot: the steps from [root] down to it. *)
Definition addr : Type := list dir.

Section BinaryTree.

Context {T : Type} `{EqDecision T}.

(** [struct Node]: the value of a slot of type [Node<T>*]. *)
Inductive tree : Type :=
| nullptr
| Node (element : T) (left right : tree).

#[global] Instance tree_eq_dec : EqDecision tree.
Proof. solve_decision. Defined.

(** [class BinaryTree]: the two private fields. *)
Record BinaryTree : Type := mkTree { root : tree; treeSize : Z }.

Definition is_null (t : tree) : bool :=
  match t with nullptr => true | Node _ _ _ => false end.

Definition left_of (t : tree) : tree :=
  match t with nullptr => nullptr | Node _ l _ => l end.

Definition right_of (t : tree) : tree :=
  match t with nullptr => nullptr | Node _ _ r => r end.

Definition slot (d : dir) (t : tree) : tree :=
  match d with Left => left_of t | Right => right_of t end.

(** The pointer stored in the slot at address [p]. *)
Fixpoint deref (t : tree) (p : addr) : tree :=
  match p with
  | [] => t
  | d :: p' => deref (slot d t) p'
  end.

(** Assignment [*p = s] to the slot at address [p].  The slots the code
    writes to belong to nodes that exist; a slot of no node is left alone. *)
Fixpoint store (t : tree) (p : addr) (s : tree) {struct p} : tree :=
  match p with
  | [] => s
  | d :: p' =>
      match t with
      | nullptr => nullptr
      | Node e l r =>
          match d with
          | Left => Node e (store l p' s) r
          | Right => Node e l (store r p' s)
          end
      end
  end.

(** Assignment [p->element = e]. *)
Definition set_element (t : tree) (p : addr) (e : T) : tree :=
  match deref t p with
  | nullptr => t
  | Node _ l r => store t p (Node e l r)
  end.

(** [&p->left] and [&p->right]. *)
Definition child (p : addr) (d : dir) : addr := p ++ [d].

(** Number of nodes owned by a slot. *)
Fixpoint nodes (t : tree) : nat :=
  match t with
  | nullptr => 0
  | Node _ l r => S (nodes l + nodes r)
  end.

(** The element stored at address [p], when a node lives there. *)
Definition elem_at (t : tree) (p : addr) : option T :=
  match deref t p with
  | nullptr => None
  | Node e _ _ => Some e
  end.

(** [x] is stored at some node. *)
Fixpoint stored (x : T) (t : tree) : Prop :=
  match t with
  | nullptr => False
  | Node e l r => e = x \/ stored x l \/ stored x r
  end.

#[global] Instance stored_dec x t : Decision (stored x t).
Proof. induction t; simpl; apply _. Defined.

(** ** Constructors *)

(** [BinaryTree()]. *)
Definition empty_tree : BinaryTree := mkTree nullptr 0%Z.

(** The loop of the copy constructor.  [treeQueue] holds the addresses of the
    slots of the new tree still to fill, [copyTreeQueue] the source nodes
    still to copy. *)
Fixpoint copy_loop (fuel : nat) (root : tree) (treeSize : Z)
    (treeQueue : list addr) (copyTreeQueue : list tree) : result BinaryTree :=
  match fuel with
  | O => OutOfFuel
  | S fuel =>
      match copyTreeQueue with
      | [] => Ok (mkTree root treeSize)
      | copyNode :: copyTreeQueue =>
          match treeQueue with
          | [] => Fault
          | currentNode :: treeQueue =>
              match copyNode with
              | nullptr => Fault
              | Node e l r =>
                  let root := store root currentNode (Node e nullptr nullptr) in
                  let '(treeQueue, copyTreeQueue) :=
                    if is_null l then (treeQueue, copyTreeQueue)
                    else (treeQueue ++ [child currentNode Left], copyTreeQueue ++ [l]) in
                  let '(treeQueue, copyTreeQueue) :=
                    if is_null r then (treeQueue, copyTreeQueue)
                    else (treeQueue ++ [child currentNode Right], copyTreeQueue ++ [r]) in
                  copy_loop fuel root (treeSize + 1)%Z treeQueue copyTreeQueue
              end
          end
      end
  end.

(** [BinaryTree(const BinaryTree<T>& copyTree)]. *)
Definition copy_ctor (copyTree : BinaryTree) : result BinaryTree :=
  copy_loop (S (S (nodes (root copyTree)))) nullptr 0%Z [[]] [root copyTree].

(** [clear()]: [delete root] destroys every node. *)
Definition clear (b : BinaryTree) : BinaryTree := mkTree nullptr 0%Z.

(** The loop of the move constructor: the same walk, the elements being
    moved out of the source nodes. *)
Fixpoint move_loop (fuel : nat) (root : tree) (treeSize : Z)
    (treeQueue : list addr) (moveTreeQueue : list tree) : result BinaryTree :=
  match fuel with
  | O => OutOfFuel
  | S fuel =>
      match moveTreeQueue with
      | [] => Ok (mkTree root treeSize)
      | moveNode :: moveTreeQueue =>
          match treeQueue with
          | [] => Fault
          | currentNode :: treeQueue =>
              match moveNode with
              | nullptr => Fault
              | Node e l r =>
                  let root := store root currentNode (Node e nullptr nullptr) in
                  let '(treeQueue, moveTreeQueue) :=
                    if is_null l then (treeQueue, moveTreeQueue)
                    else (treeQueue ++ [child currentNode Left], moveTreeQueue ++ [l]) in
                  let '(treeQueue, moveTreeQueue) :=
                    if is_null r then (treeQueue, moveTreeQueue)
                    else (treeQueue ++ [child currentNode Right], moveTreeQueue ++ [r]) in
                  move_loop fuel root (treeSize + 1)%Z treeQueue moveTreeQueue
              end
          end
      end
  end.

(** [BinaryTree(BinaryTree<T>&& moveTree)]: the new object and what is left
    of [moveTree], which the constructor clears at its end. *)
Definition move_ctor (moveTree : BinaryTree) : result (BinaryTree * BinaryTree) :=
  do this <- move_loop (S (S (nodes (root moveTree)))) nullptr 0%Z [[]] [root moveTree];
  Ok (this, clear moveTree).

(** ** Functions *)

(** The loop of [insert].  [Ok None] is the early [return] on a duplicate;
    [Ok (Some t)] leaves the loop (by [break], or with an empty queue) with
    the tree [t], after which [insert] increments [treeSize]. *)
Fixpoint insert_loop (t : tree) (element : T) (fuel : nat)
    (treeQueue : list addr) : result (option tree) :=
  match fuel with
  | O => OutOfFuel
  | S fuel =>
      match treeQueue with
      | [] => Ok (Some t)
      | currentNode :: treeQueue =>
          match deref t currentNode with
          | nullptr => Fault
          | Node _ l r =>
              match l with
              | nullptr =>
                  Ok (Some (store t (child currentNode Left) (Node element nullptr nullptr)))
              | Node le _ _ =>
                  if decide (le = element) then Ok None
                  else
                    let treeQueue := treeQueue ++ [child currentNode Left] in
                    match r with
                    | nullptr =>
                        Ok (Some (store t (child currentNode Right)
                                    (Node element nullptr nullptr)))
                    | Node re _ _ =>
                        if decide (re = element) then Ok None
                        else insert_loop t element fuel
                               (treeQueue ++ [child currentNode Right])
                    end
              end
          end
      end
  end.

(** [insert(element)]. *)
Definition insert (element : T) (b : BinaryTree) : result BinaryTree :=
  match root b with
  | nullptr => Ok (mkTree (Node element nullptr nullptr) (treeSize b + 1)%Z)
  | Node e _ _ =>
      if decide (e = element) then Ok b
      else
        do r <- insert_loop (root b) element (nodes (root b)) [[]];
        match r with
        | None => Ok b
        | Some t => Ok (mkTree t (treeSize b + 1)%Z)
        end
  end.

(** The loop of [bfsearch]; the queue holds the nodes still to visit. *)
Fixpoint bfsearch_loop (element : T) (fuel : nat) (treeQueue : list tree) : result bool :=
  match fuel with
  | O => OutOfFuel
  | S fuel =>
      match treeQueue with
      | [] => Ok false
      | currentNode :: treeQueue =>
          match currentNode with
          | nullptr => Fault
          | Node e l r =>
              if decide (e = element) then Ok true
              else
                let treeQueue := if is_null l then treeQueue else treeQueue ++ [l] in
                let treeQueue := if is_null r then treeQueue else treeQueue ++ [r] in
                bfsearch_loop element fuel treeQueue
          end
      end
  end.

(** [bfsearch(element)]. *)
Definition bfsearch (element : T) (b : BinaryTree) : result bool :=
  match root b with
  | nullptr => Ok false
  | Node _ _ _ => bfsearch_loop element (S (nodes (root b))) [root b]
  end.

(** The loop of [dfsearch], with its explicit stack. *)
Fixpoint dfsearch_loop (element : T) (fuel : nat) (treeStack : list tree)
    (currentNode : tree) : result bool :=
  match fuel with
  | O => OutOfFuel
  | S fuel =>
      match currentNode with
      | Node _ l _ => dfsearch_loop element fuel (currentNode :: treeStack) l
      | nullptr =>
          match treeStack with
          | [] => Ok false
          | top :: treeStack =>
              match top with
              | nullptr => Fault
              | Node e _ r =>
                  if decide (e = element) then Ok true
                  else dfsearch_loop element fuel treeStack r
              end
          end
      end
  end.

(** [dfsearch(element)]. *)
Definition dfsearch (element : T) (b : BinaryTree) : result bool :=
  match root b with
  | nullptr => Ok false
  | Node _ l _ => dfsearch_loop element (2 * nodes (root b)) [root b] l
  end.

(** The scan of [remove]: one breadth-first pass that records the last node
    holding [element] and the last node having a child. *)
Fixpoint remove_loop (t : tree) (element : T) (fuel : nat) (treeQueue : list addr)
    (deepestParent deleteNode : option addr) : result (option addr * option addr) :=
  match fuel with
  | O => OutOfFuel
  | S fuel =>
      match treeQueue with
      | [] => Ok (deepestParent, deleteNode)
      | currentNode :: treeQueue =>
          match deref t currentNode with
          | nullptr => Fault
          | Node e l r =>
              let deleteNode :=
                if decide (e = element) then Some currentNode else deleteNode in
              let deepestParent :=
                if is_null l && is_null r then deepestParent else Some currentNode in
              let treeQueue :=
                if is_null l then treeQueue else treeQueue ++ [child currentNode Left] in
              let treeQueue :=
                if is_null r then treeQueue else treeQueue ++ [child currentNode Right] in
              remove_loop t element fuel treeQueue deepestParent deleteNode
          end
      end
  end.

(** The node [remove] deletes: the right child of [deepestParent] when there
    is one, else its left child. *)
Definition excised (t : tree) (deepestParent : addr) : addr :=
  if is_null (deref t (child deepestParent Right))
  then child deepestParent Left
  else child deepestParent Right.

(** [remove(element)]. *)
Definition remove (element : T) (b : BinaryTree) : result BinaryTree :=
  match root b with
  | nullptr => Ok b
  | Node _ _ _ =>
      do found <- remove_loop (root b) element (S (nodes (root b))) [[]] None None;
      let '(deepestParent, deleteNode) := found in
      match deleteNode with
      | None => Ok b
      | Some deleteNode =>
          match deepestParent with
          | None => Ok (clear b)
          | Some deepestParent =>
              match deref (root b) (excised (root b) deepestParent) with
              | nullptr => Fault
              | Node e _ _ =>
                  let t := set_element (root b) deleteNode e in
                  let t := store t (excised (root b) deepestParent) nullptr in
                  Ok (mkTree t (treeSize b - 1)%Z)
              end
          end
      end
  end.

(** [size()] and [empty()]. *)
Definition size (b : BinaryTree) : Z := treeSize b.
Definition empty (b : BinaryTree) : bool := (treeSize b =? 0)%Z.

Local Open Scope Z_scope.

(** [getDepth(current, element, depth)]. *)
Fixpoint getDepth (current : tree) (element : T) (depth : Z) : Z :=
  match current with
  | nullptr => -1
  | Node e l r =>
      if decide (e = element) then depth
      else
        let leftDepth := getDepth l element (depth + 1) in
        let rightDepth := getDepth r element (depth + 1) in
        if leftDepth <? rightDepth then rightDepth else leftDepth
  end.

(** [depth(element)]. *)
Definition depth (element : T) (b : BinaryTree) : Z :=
  match root b with
  | nullptr => -1
  | Node e l r =>
      if decide (e = element) then 0
      else
        let leftDepth := getDepth l element 1 in
        let rightDepth := getDepth r element 1 in
        if leftDepth <? rightDepth then rightDepth else leftDepth
  end.

(** [getHeight(current, element, height, elementFound)]. *)
Fixpoint getHeight (current : tree) (element : T) (height : Z) (elementFound : bool) : Z :=
  match current with
  | nullptr => if elementFound then height else -1
  | Node e l r =>
      let height := if elementFound then height + 1 else height in
      let elementFound :=
        if elementFound then true else bool_decide (e = element) in
      let leftHeight := getHeight l element height elementFound in
      let rightHeight := getHeight r element height elementFound in
      if leftHeight <? rightHeight then rightHeight else leftHeight
  end.

(** [height(element)]. *)
Definition height (element : T) (b : BinaryTree) : Z :=
  match root b with
  | nullptr => -1
  | Node _ _ _ => getHeight (root b) element 0 false
  end.

Local Close Scope Z_scope.

(** [invert(invertNode)]: swap the two slots, then invert both. *)
Fixpoint invert (invertNode : tree) : tree :=
  match invertNode with
  | nullptr => nullptr
  | Node e l r => Node e (invert r) (invert l)
  end.

(** [invertTree()]. *)
Definition invertTree (b : BinaryTree) : BinaryTree :=
  mkTree (invert (root b)) (treeSize b).

(** [swap(other)]: returns this object and [other] after the exchange. *)
Definition swap (this other : BinaryTree) : BinaryTree * BinaryTree :=
  (mkTree (root other) (treeSize other), mkTree (root this) (treeSize this)).

(** ** Operators *)

(** [operator=(const BinaryTree&)]: a temporary copy is swapped with this
    object; the temporary, holding the old contents, is destroyed. *)
Definition copy_assign (this copyTree : BinaryTree) : result BinaryTree :=
  do tempTree <- copy_ctor copyTree;
  let '(tempTree, this) := swap tempTree this in
  Ok this.

(** [operator=(BinaryTree&&)] on two distinct objects: this object and
    [moveTree] afterwards.  (On the same object the operator returns at
    once.) *)
Definition move_assign (this moveTree : BinaryTree) : BinaryTree * BinaryTree :=
  let this := clear this in
  let '(moveTree, this) := swap moveTree this in
  (this, moveTree).

(** ** Notions the statements use *)

(** A sequence of [insert] calls, in the order of the list. *)
Definition inserts (xs : list T) (b : BinaryTree) : result BinaryTree :=
  foldl (fun acc x => do b <- acc; insert x b) (Ok b) xs.

(** The children of the node at [p], left before right. *)
Definition children (t : tree) (p : addr) : list addr :=
  (if is_null (deref t (child p Left)) then [] else [child p Left]) ++
  (if is_null (deref t (child p Right)) then [] else [child p Right]).

(** Breadth-first enumeration of the nodes reached from a queue of nodes. *)
Fixpoint bfs (t : tree) (fuel : nat) (queue : list addr) : list addr :=
  match fuel with
  | O => []
  | S fuel =>
      match queue with
      | [] => []
      | p :: queue => p :: bfs t fuel (queue ++ children t p)
      end
  end.

(** Level order: the breadth-first enumeration of the nodes from the root,
    the left child of a node before its right child. *)
Definition level_order (t : tree) : list addr :=
  if is_null t then [] else bfs t (nodes t) [[]].

(** The nodes at each depth, from left to right: the nodes at depth [d + 1]
    are the children of the nodes at depth [d]. *)
Fixpoint level (t : tree) (d : nat) : list addr :=
  match d with
  | O => if is_null t then [] else [[]]
  | S d => level t d ≫= children t
  end.

(** The node at [p] holds [x]. *)
Definition holds (t : tree) (x : T) (p : addr) : Prop := elem_at t p = Some x.

(** The node at [p] has at least one child. *)
Definition has_child (t : tree) (p : addr) : Prop := children t p <> [].

#[global] Instance holds_dec t x p : Decision (holds t x p).
Proof. unfold holds. apply _. Defined.

#[global] Instance has_child_dec t p : Decision (has_child t p).
Proof. unfold has_child. apply _. Defined.

(** One step of "remember the last entry satisfying [P]". *)
Definition pick {A : Type} (P : A -> Prop) `{forall a, Decision (P a)}
    (acc : option A) (a : A) : option A :=
  if decide (P a) then Some a else acc.

(** The position of a slot in the array layout of a complete binary tree:
    the root is 1, the children of [i] are [2 * i] and [2 * i + 1]. *)
Definition index (p : addr) : nat :=
  foldl (fun i d => match d with Left => 2 * i | Right => 2 * i + 1 end) 1 p.

(** [t] is the complete tree holding [xs] in level order: the node at
    position [i] holds the [i]-th element of [xs], and there is no node at
    a position beyond the length of [xs]. *)
Definition complete_with (t : tree) (xs : list T) : Prop :=
  forall p : addr, elem_at t p = xs !! (index p - 1).

(** A queue entry points to a node. *)
Definition live (t : tree) (p : addr) : Prop := deref t p <> nullptr.

(** Number of nodes below the entries of a queue. *)
Definition weight (t : tree) (queue : list addr) : nat :=
  sum_list_with (fun p => nodes (deref t p)) queue.

(** The slot at [p] exists: every node on the way to it does. *)
Fixpoint slot_exists (t : tree) (p : addr) {struct p} : Prop :=
  match p with
  | [] => True
  | d :: p' =>
      match t with
      | nullptr => False
      | Node _ _ _ => slot_exists (slot d t) p'
      end
  end.

(** Two trees differ at most in the elements they hold. *)
Fixpoint same_shape (t1 t2 : tree) : Prop :=
  match t1, t2 with
  | nullptr, nullptr => True
  | Node _ l1 r1, Node _ l2 r2 => same_shape l1 l2 /\ same_shape r1 r2
  | _, _ => False
  end.

(** What a node waiting on the stack of [dfsearch] still has to offer: its
    own element and its right subtree. *)
Definition pending (x : T) (n : tree) : Prop :=
  match n with
  | nullptr => False
  | Node e _ r => e = x \/ stored x r
  end.

#[global] Instance pending_dec x n : Decision (pending x n).
Proof. destruct n; simpl; apply _. Defined.

(** Iterations the entries of the stack of [dfsearch] still stand for. *)
Definition stack_weight (treeStack : list tree) : nat :=
  sum_list_with (fun n => S (2 * nodes (right_of n))) treeStack.

(** The address [p] lies at or below an entry of the queue. *)
Definition cut (queue : list addr) (p : addr) : Prop :=
  Exists (fun s => s `prefix_of` p) queue.

#[global] Instance cut_dec queue p : Decision (cut queue p).
Proof. unfold cut. apply _. Defined.

(** The addresses reached from those of [L] by [n] steps down to a child. *)
Fixpoint descend (t : tree) (n : nat) (L : list addr) : list addr :=
  match n with
  | O => L
  | S n => descend t n L ≫= children t
  end.

(** The size invariant of [BinaryTree]. *)
Definition size_consistent (b : BinaryTree) : Prop :=
  treeSize b = Z.of_nat (nodes (root b)).

(** The states of a [BinaryTree] object that the public operations can
    produce, starting from the default constructor. *)
Inductive reachable : BinaryTree -> Prop :=
| reach_default : reachable empty_tree
| reach_insert x b b' :
    reachable b -> insert x b = Ok b' -> reachable b'
| reach_remove x b b' :
    reachable b -> remove x b = Ok b' -> reachable b'
| reach_clear b :
    reachable b -> reachable (clear b)
| reach_invertTree b :
    reachable b -> reachable (invertTree b)
| reach_copy_ctor a b :
    reachable a -> copy_ctor a = Ok b -> reachable b
| reach_move_ctor a b a' :
    reachable a -> move_ctor a = Ok (b, a') -> reachable b
| reach_moved_from a b a' :
    reachable a -> move_ctor a = Ok (b, a') -> reachable a'
| reach_copy_assign b a b' :
    reachable b -> reachable a -> copy_assign b a = Ok b' -> reachable b'
| reach_move_assign b a :
    reachable b -> reachable a -> reachable (fst (move_assign b a))
| reach_move_assigned_from b a :
    reachable b -> reachable a -> reachable (snd (move_assign b a)).

End BinaryTree.

Arguments tree T : clear implicits.
Arguments BinaryTree T : clear implicits.

(** ** Traversals, printing and further notions *)

Definition flip (d : dir) : dir :=
  match d with Left => Right | Right => Left end.

(** The address reached by the same steps with left and right exchanged. *)
Definition mirror (p : addr) : addr := flip <$> p.

(** The two child slots of the node at [p], left before right. *)
Definition slots (p : addr) : list addr := [child p Left; child p Right].

Section Further.

Context {T : Type} `{EqDecision T}.

(** Number of levels of a tree: one more than the number of edges from the
    root down to a deepest node. *)
Fixpoint levels (t : tree T) : nat :=
  match t with
  | nullptr => 0
  | Node _ l r => S (levels l `max` levels r)
  end.

Fixpoint inorder (t : tree T) : list T :=
  match t with
  | nullptr => []
  | Node e l r => inorder l ++ e :: inorder r
  end.

Fixpoint preorder (t : tree T) : list T :=
  match t with
  | nullptr => []
  | Node e l r => e :: preorder l ++ preorder r
  end.

Fixpoint postorder (t : tree T) : list T :=
  match t with
  | nullptr => []
  | Node e l r => postorder l ++ postorder r ++ [e]
  end.

(** The first empty child slot in level order. *)
Definition first_free (t : tree T) : option addr :=
  head (filter (fun s => deref t s = nullptr) (level_order t ≫= slots)).

(** The node at [p] holds [x] and no node on the way to it does. *)
Definition first_hit (t : tree T) (x : T) (p : addr) : Prop :=
  holds t x p /\ forall q, q `prefix_of` p -> holds t x q -> q = p.

(** The elements of [xs] without repetitions, in the order of their first
    occurrence. *)
Definition add_new (ys : list T) (x : T) : list T :=
  if decide (x ∈ ys) then ys else ys ++ [x].

Definition first_occurrences (xs : list T) : list T := foldl add_new [] xs.

(** No node has a right child without having a left child. *)
Fixpoint no_right_only (t : tree T) : Prop :=
  match t with
  | nullptr => True
  | Node _ l r => (l = nullptr -> r = nullptr) /\ no_right_only l /\ no_right_only r
  end.

End Further.

Section Printing.

(** [operator<<] of the element type: the text it writes. *)
Context {T : Type} (show : T -> string).

Definition tab : string := String (ascii_of_nat 9) EmptyString.

(** [std::endl]: the newline (the flush is not modelled). *)
Definition endl : string := String (ascii_of_nat 10) EmptyString.

(** A separated sequence of texts. *)
Definition join (texts : list string) : string := String.concat ", " texts.

(** [operator<<(std::ostream&, const Node<T>&)]: the text written for a
    node.  The argument is a reference, so the [nullptr] case is never
    reached. *)
Fixpoint stream_node (node : tree T) : string :=
  match node with
  | nullptr => ""
  | Node e l r =>
      match is_null l, is_null r with
      | false, false => stream_node l +:+ ", " +:+ show e +:+ ", " +:+ stream_node r
      | false, true => stream_node l +:+ ", " +:+ show e
      | true, false => show e +:+ ", " +:+ stream_node r
      | true, true => show e
      end
  end.

(** [operator<<(std::ostream&, const BinaryTree<T>&)]. *)
Definition stream_tree (b : BinaryTree T) : string :=
  match root b with
  | nullptr => "()"
  | Node e _ _ =>
      "[root: " +:+ show e +:+ "]" +:+ tab +:+ "(" +:+ stream_node (root b) +:+ ")"
  end.

(** [print(node, printOrder)]: the text written to [std::cout]. *)
Fixpoint print (node : tree T) (printOrder : ascii) : string :=
  match node with
  | nullptr => ""
  | Node e l r =>
      if Ascii.eqb printOrder "i" then
        print l printOrder +:+
        match is_null l, is_null r with
        | false, false => ", " +:+ show e +:+ ", "
        | false, true => ", " +:+ show e
        | true, false => show e +:+ ", "
        | true, true => show e
        end +:+
        print r printOrder
      else if Ascii.eqb printOrder "r" then
        show e +:+
        match is_null l, is_null r with
        | false, false =>
            ", " +:+ print l printOrder +:+ ", " +:+ print r printOrder
        | false, true => ", " +:+ print l printOrder
        | true, false => ", " +:+ print r printOrder
        | true, true => ""
        end
      else if Ascii.eqb printOrder "o" then
        match is_null l, is_null r with
        | false, false =>
            print l printOrder +:+ ", " +:+ print r printOrder +:+ ", "
        | false, true => print l printOrder +:+ ", "
        | true, false => ", " +:+ print r printOrder
        | true, true => ""
        end +:+
        show e
      else ""
  end.

(** [printInorder()]. *)
Definition printInorder (b : BinaryTree T) : string :=
  match root b with
  | nullptr => "()" +:+ endl
  | Node e _ _ =>
      "[root: " +:+ show e +:+ "]" +:+ tab +:+ "(" +:+
      print (root b) "i" +:+ ")" +:+ endl
  end.

(** [printPreorder()]. *)
Definition printPreorder (b : BinaryTree T) : string :=
  match root b with
  | nullptr => "()" +:+ endl
  | Node e _ _ =>
      "[root: " +:+ show e +:+ "]" +:+ tab +:+ "(" +:+
      print (root b) "r" +:+ ")" +:+ endl
  end.

(** [printPostorder()]. *)
Definition printPostorder (b : BinaryTree T) : string :=
  match root b with
  | nullptr => "()" +:+ endl
  | Node e _ _ =>
      "[root: " +:+ show e +:+ "]" +:+ tab +:+ "(" +:+
      print (root b) "o" +:+ ")" +:+ endl
  end.

End Printing.

(** ** Stack.hpp

    The stack owns a chain of nodes through [top] and the [previous]
    pointers; the model follows the one of the tree: an owning [Node<T>*]
    slot is a [chain], the cursor [Node<T>** currentNode] of the
    constructors is the number of [previous] steps from [top] to the slot
    it points to, and a [throw] is an outcome of its own. *)

Module Stack.

(** What a call returns, or the exception it throws. *)
Inductive outcome (A : Type) : Type :=
| Returns (a : A)
| Throws_underflow_error (what : string).
Arguments Returns {A} a.
Arguments Throws_underflow_error {A} what.

Section Stack.

Context {T : Type}.

(** [struct Node]: the value of a slot of type [Node<T>*]. *)
Inductive chain : Type :=
| nullptr
| Node (data : T) (previous : chain).

(** [class Stack]: the two private fields. *)
Record Stack : Type := mkStack { top : chain; stackSize : Z }.

(** Assignment [*currentNode = s] to the slot [k] steps below [top]. *)
Fixpoint store (c : chain) (k : nat) (s : chain) {struct k} : chain :=
  match k with
  | O => s
  | S k =>
      match c with
      | nullptr => nullptr
      | Node data previous => Node data (store previous k s)
      end
  end.

(** [Stack()]. *)
Definition empty_stack : Stack := mkStack nullptr 0%Z.

(** The loop of the copy constructor: [copyNode] walks down the source
    chain, [currentNode] points to the slot to fill next. *)
Fixpoint copy_loop (copyNode : chain) (top : chain) (currentNode : nat)
    (stackSize : Z) : Stack :=
  match copyNode with
  | nullptr => mkStack top stackSize
  | Node data previous =>
      copy_loop previous (store top currentNode (Node data nullptr))
        (S currentNode) (stackSize + 1)%Z
  end.

(** [Stack(const Stack<T>& copyStack)]. *)
Definition copy_ctor (copyStack : Stack) : Stack :=
  copy_loop (top copyStack) nullptr 0 0%Z.

(** [clear()]. *)
Definition clear (s : Stack) : Stack := mkStack nullptr 0%Z.

(** The loop of the move constructor: the same walk, the data being moved
    out of the source nodes. *)
Fixpoint move_loop (moveNode : chain) (top : chain) (currentNode : nat)
    (stackSize : Z) : Stack :=
  match moveNode with
  | nullptr => mkStack top stackSize
  | Node data previous =>
      move_loop previous (store top currentNode (Node data nullptr))
        (S currentNode) (stackSize + 1)%Z
  end.

(** [Stack(Stack<T>&& moveStack)]: the new object and what is left of
    [moveStack]. *)
Definition move_ctor (moveStack : Stack) : Stack * Stack :=
  (move_loop (top moveStack) nullptr 0 0%Z, clear moveStack).

(** [push(data)]. *)
Definition push (data : T) (s : Stack) : Stack :=
  mkStack (Node data (top s)) (stackSize s + 1)%Z.

(** [pop()]: what the call returns or throws, and the stack afterwards. *)
Definition pop (s : Stack) : outcome T * Stack :=
  match top s with
  | nullptr => (Throws_underflow_error "Stack is Empty", s)
  | Node popped_data previous =>
      (Returns popped_data, mkStack previous (stackSize s - 1)%Z)
  end.

(** [peek()]. *)
Definition peek (s : Stack) : outcome T :=
  match top s with
  | nullptr => Throws_underflow_error "Stack is Empty"
  | Node data _ => Returns data
  end.

(** [size()] and [empty()]. *)
Definition size (s : Stack) : Z := stackSize s.
Definition empty (s : Stack) : bool := (stackSize s =? 0)%Z.

(** [swap(other)]: this object and [other] after the exchange. *)
Definition swap (this other : Stack) : Stack * Stack :=
  (mkStack (top other) (stackSize other), mkStack (top this) (stackSize this)).

(** [operator=(const Stack&)]. *)
Definition copy_assign (this copyStack : Stack) : Stack :=
  let tempStack := copy_ctor copyStack in
  let '(tempStack, this) := swap tempStack this in
  this.

(** [operator=(Stack&&)] on two distinct objects: this object and
    [moveStack] afterwards. *)
Definition move_assign (this moveStack : Stack) : Stack * Stack :=
  let this := clear this in
  let '(moveStack, this) := swap moveStack this in
  (this, moveStack).

(** [operator<<(std::ostream&, const Node<T>&)]: the text written for a
    node.  The argument is a reference, so the [nullptr] case is never
    reached. *)
Fixpoint stream_node (show : T -> string) (node : chain) : string :=
  match node with
  | nullptr => ""
  | Node data previous =>
      match previous with
      | nullptr => show data
      | Node _ _ => stream_node show previous +:+ ", " +:+ show data
      end
  end.

(** [operator<<(std::ostream&, const Stack<T>&)]. *)
Definition stream_stack (show : T -> string) (s : Stack) : string :=
  match top s with
  | nullptr => "()"
  | Node _ _ => "(" +:+ stream_node show (top s) +:+ ")"
  end.

(** The elements of a chain, from the top down. *)
Fixpoint elements (c : chain) : list T :=
  match c with
  | nullptr => []
  | Node data previous => data :: elements previous
  end.

(** A chain on top of another. *)
Fixpoint onto (c below : chain) : chain :=
  match c with
  | nullptr => below
  | Node data previous => Node data (onto previous below)
  end.

(** A sequence of [push] calls, in the order of the list. *)
Definition pushes (xs : list T) (s : Stack) : Stack :=
  foldl (fun s x => push x s) s xs.

(** [n] calls of [pop]: their outcomes in order, and the stack afterwards. *)
Fixpoint pops (n : nat) (s : Stack) : list (outcome T) * Stack :=
  match n with
  | O => ([], s)
  | S n =>
      let '(o, s) := pop s in
      let '(os, s) := pops n s in
      (o :: os, s)
  end.

End Stack.

Arguments chain T : clear implicits.
Arguments Stack T : clear implicits.

End Stack.

(** ** The trees of the scenarios *)

Definition leaf (x : Z) : tree Z := Node x nullptr nullptr.

(** The tree obtained by inserting 1, 2, 3, 4, 5. *)
Definition tree_12345 : tree Z :=
  Node 1%Z (Node 2%Z (leaf 4) (leaf 5)) (leaf 3).

(** The tree [remove(2)] makes of it. *)
Definition tree_1534 : tree Z :=
  Node 1%Z (Node 5%Z (leaf 4) nullptr) (leaf 3).

(** The root 1 with the single child 2 on the right: what [invertTree]
    makes of the tree obtained by inserting 1, 2. *)
Definition tree_1_2 : tree Z := Node 1%Z nullptr (leaf 2).

(** * Facts about slots, addresses and the breadth-first enumeration *)

Section Facts.
Context {T : Type} `{EqDecision T}.
Implicit Types (t l r s : tree T) (p q : addr) (x e : T) (b : BinaryTree T).

Lemma is_null_true t : is_null t = true <-> t = nullptr.
Proof. destruct t; simpl; split; congruence. Qed.

Lemma is_null_false t : is_null t = false <-> t <> nullptr.
Proof. destruct t; simpl; split; congruence. Qed.

Lemma nodes_pos t : t <> nullptr -> (0 < nodes t)%nat.
Proof. destruct t; simpl; [congruence | lia]. Qed.

Lemma nodes_zero t : nodes t = 0%nat <-> t = nullptr.
Proof. destruct t; simpl; split; (congruence || lia). Qed.

Lemma deref_nullptr p : deref (@nullptr T) p = nullptr.
Proof. induction p as [|[] p IH]; simpl; auto. Qed.

Lemma deref_app t p q : deref t (p ++ q) = deref (deref t p) q.
Proof. revert t; induction p as [|d p IH]; intros t; simpl; auto. Qed.

Lemma deref_child t p d : deref t (child p d) = slot d (deref t p).
Proof. unfold child. rewrite deref_app. reflexivity. Qed.

Lemma live_child t p d : live t (child p d) -> live t p.
Proof.
  unfold live. rewrite deref_child. intros Hc Hp. rewrite Hp in Hc.
  destruct d; simpl in Hc; congruence.
Qed.

Lemma live_app t p q : live t (p ++ q) -> live t p.
Proof.
  unfold live. rewrite deref_app. intros Hc Hp. rewrite Hp, deref_nullptr in Hc.
  congruence.
Qed.

Lemma child_neq p d : child p d <> p.
Proof.
  unfold child. intros Heq. apply (f_equal length) in Heq.
  rewrite length_app in Heq. simpl in Heq. lia.
Qed.

Lemma children_node t p e l r :
  deref t p = Node e l r ->
  children t p =
    (if is_null l then [] else [child p Left]) ++
    (if is_null r then [] else [child p Right]).
Proof. intros Hp. unfold children. rewrite !deref_child, Hp. reflexivity. Qed.

Lemma children_nullptr t p : deref t p = nullptr -> children t p = [].
Proof. intros Hp. unfold children. rewrite !deref_child, Hp. reflexivity. Qed.

Lemma children_live t p c : c ∈ children t p -> live t c.
Proof.
  unfold children, live. intros Hc.
  apply elem_of_app in Hc as [Hc|Hc];
    [destruct (is_null (deref t (child p Left))) eqn:E
    |destruct (is_null (deref t (child p Right))) eqn:E];
    try (apply elem_of_nil in Hc; contradiction);
    apply list_elem_of_singleton in Hc; subst c; apply is_null_false; exact E.
Qed.

Lemma children_spec t p c :
  c ∈ children t p <-> exists d, c = child p d /\ live t c.
Proof.
  split.
  - intros Hc. pose proof (children_live _ _ _ Hc) as Hl.
    unfold children in Hc. apply elem_of_app in Hc as [Hc|Hc].
    + destruct (is_null _); [apply elem_of_nil in Hc; contradiction|].
      apply list_elem_of_singleton in Hc. eauto.
    + destruct (is_null _); [apply elem_of_nil in Hc; contradiction|].
      apply list_elem_of_singleton in Hc. eauto.
  - intros (d & -> & Hl). unfold children, live in *.
    apply (proj2 (is_null_false _)) in Hl. apply elem_of_app.
    destruct d; [left|right]; rewrite Hl; apply list_elem_of_singleton; reflexivity.
Qed.

Lemma weight_app t (qs1 qs2 : list addr) :
  weight t (qs1 ++ qs2) = (weight t qs1 + weight t qs2)%nat.
Proof. apply sum_list_with_app. Qed.

Lemma weight_children t p e l r :
  deref t p = Node e l r -> weight t (children t p) = (nodes l + nodes r)%nat.
Proof.
  intros Hp. rewrite (children_node _ _ _ _ _ Hp), weight_app.
  assert (Hl : deref t (child p Left) = l) by (rewrite deref_child, Hp; reflexivity).
  assert (Hr : deref t (child p Right) = r) by (rewrite deref_child, Hp; reflexivity).
  f_equal.
  - destruct l; simpl; [reflexivity|]. unfold weight; simpl. rewrite Hl. simpl. lia.
  - destruct r; simpl; [reflexivity|]. unfold weight; simpl. rewrite Hr. simpl. lia.
Qed.

Lemma Forall_live_children t p : Forall (live t) (children t p).
Proof. apply list.Forall_forall. intros c. apply children_live. Qed.

(** Taking a node from the front of a queue and appending its children
    keeps the entries alive and lowers the weight by one. *)
Lemma live_dequeue t p queue :
  Forall (live t) queue -> Forall (live t) (queue ++ children t p).
Proof.
  intros Hq. apply list.Forall_app. split; [exact Hq|apply Forall_live_children].
Qed.

Lemma weight_root t : weight t [[]] = nodes t.
Proof. unfold weight. simpl. lia. Qed.

Lemma weight_dequeue t p queue :
  live t p -> S (weight t (queue ++ children t p)) = weight t (p :: queue).
Proof.
  intros Hp. destruct (deref t p) as [|e l r] eqn:E; [contradiction|].
  rewrite weight_app, (weight_children _ _ _ _ _ E).
  unfold weight. simpl. rewrite E. simpl. lia.
Qed.

(** The step shared by the inductions over the fuel of a breadth-first
    loop: split the queue, and relate its weight to the weight after the
    step. *)
Ltac dequeue Hlive p queue Hp Hq Hd :=
  apply list.Forall_cons in Hlive as [Hp Hq];
  pose proof (weight_dequeue _ p queue Hp) as Hd;
  pose proof (live_dequeue _ p queue Hq).

(** The enumeration is the queue followed by the children of every
    enumerated node, in order. *)
Lemma bfs_unfold t fuel queue :
  Forall (live t) queue -> (weight t queue <= fuel)%nat ->
  bfs t fuel queue = queue ++ (bfs t fuel queue ≫= children t).
Proof.
  revert queue. induction fuel as [|fuel IH]; intros queue Hlive Hw;
    (destruct queue as [|p queue]; [reflexivity|]);
    dequeue Hlive p queue Hp Hq Hd; [lia|].
  change (bfs t (S fuel) (p :: queue))
    with (p :: bfs t fuel (queue ++ children t p)).
  rewrite bind_cons. etransitivity; [apply f_equal, IH; [assumption|lia]|].
  rewrite <- !app_assoc. reflexivity.
Qed.

Lemma bfs_live t fuel queue :
  Forall (live t) queue -> Forall (live t) (bfs t fuel queue).
Proof.
  revert queue. induction fuel as [|fuel IH]; intros queue Hlive; simpl; [constructor|].
  destruct queue as [|p queue]; [constructor|].
  apply list.Forall_cons in Hlive as [Hp Hq]. constructor; [assumption|].
  apply IH, live_dequeue. exact Hq.
Qed.

Lemma level_order_unfold t :
  t <> nullptr ->
  level_order t = [] :: (level_order t ≫= children t).
Proof.
  intros Ht. unfold level_order. rewrite (proj2 (is_null_false _) Ht).
  rewrite bfs_unfold at 1; [reflexivity| |].
  - constructor; [exact Ht|constructor].
  - rewrite weight_root. lia.
Qed.

Lemma level_order_nullptr : level_order (@nullptr T) = [].
Proof. reflexivity. Qed.

Lemma level_order_live t : Forall (live t) (level_order t).
Proof.
  unfold level_order. destruct (is_null t) eqn:E; [constructor|].
  apply bfs_live. constructor; [apply is_null_false; exact E|constructor].
Qed.

(** Every node is enumerated. *)
Lemma level_order_complete t p : live t p -> p ∈ level_order t.
Proof.
  induction p as [|d p IH] using rev_ind; intros Hp.
  - rewrite level_order_unfold by exact Hp. apply elem_of_cons. left; reflexivity.
  - assert (Ht : t <> nullptr) by (apply (live_app t [] (p ++ [d])); exact Hp).
    rewrite level_order_unfold by exact Ht. apply elem_of_cons. right.
    apply list_elem_of_bind. exists p. split.
    + apply children_spec. exists d. split; [reflexivity|exact Hp].
    + apply IH. eapply live_child. exact Hp.
Qed.

(** ** The scan of [remove] *)

Lemma foldl_pick {A : Type} (P : A -> Prop) `{forall a, Decision (P a)}
    (L : list A) (acc : option A) :
  foldl (pick P) acc L =
    match last (filter P L) with Some a => Some a | None => acc end.
Proof.
  induction L as [|a L IH] using rev_ind; [reflexivity|].
  rewrite foldl_snoc, filter_app, IH. unfold pick.
  destruct (decide (P a)) as [Pa|Pa].
  - rewrite (filter_cons_True P a []) by exact Pa. rewrite filter_nil, last_snoc.
    reflexivity.
  - rewrite (filter_cons_False P a []) by exact Pa. rewrite filter_nil, app_nil_r.
    reflexivity.
Qed.

Lemma has_child_node t p e l r :
  deref t p = Node e l r ->
  has_child t p <-> is_null l && is_null r = false.
Proof.
  intros Hp. unfold has_child. rewrite (children_node _ _ _ _ _ Hp).
  destruct l, r; simpl; split; congruence.
Qed.

Lemma holds_node t x p e l r :
  deref t p = Node e l r -> holds t x p <-> e = x.
Proof.
  intros Hp. unfold holds, elem_at. rewrite Hp. split; congruence.
Qed.

Lemma remove_loop_step t x fuel p queue dp dn :
  live t p ->
  remove_loop t x (S fuel) (p :: queue) dp dn =
    remove_loop t x fuel (queue ++ children t p)
      (pick (has_child t) dp p) (pick (holds t x) dn p).
Proof.
  intros Hp. simpl. destruct (deref t p) as [|e l r] eqn:E; [contradiction|].
  assert (Hq : (if is_null r
                then if is_null l then queue else queue ++ [child p Left]
                else (if is_null l then queue else queue ++ [child p Left])
                       ++ [child p Right]) = queue ++ children t p).
  { rewrite (children_node _ _ _ _ _ E).
    destruct (is_null l), (is_null r); simpl;
      rewrite <- ?app_assoc, ?app_nil_r; reflexivity. }
  rewrite Hq. f_equal.
  - unfold pick. destruct (decide (has_child t p)) as [Hc|Hc].
    + apply (has_child_node _ _ _ _ _ E) in Hc. rewrite Hc. reflexivity.
    + destruct (is_null l && is_null r) eqn:En; [reflexivity|].
      exfalso. apply Hc. apply (has_child_node _ _ _ _ _ E). exact En.
  - unfold pick. destruct (decide (e = x)) as [He|He];
      destruct (decide (holds t x p)) as [Hh|Hh]; try reflexivity.
    + exfalso. apply Hh. apply (holds_node _ _ _ _ _ _ E). exact He.
    + exfalso. apply He. apply (holds_node _ _ _ _ _ _ E). exact Hh.
Qed.

(** The scan folds over the breadth-first enumeration. *)
Lemma remove_loop_bfs t x fuel queue dp dn :
  Forall (live t) queue -> (weight t queue <= fuel)%nat ->
  remove_loop t x (S fuel) queue dp dn =
    Ok (foldl (pick (has_child t)) dp (bfs t fuel queue),
        foldl (pick (holds t x)) dn (bfs t fuel queue)).
Proof.
  revert queue dp dn.
  induction fuel as [|fuel IH]; intros queue dp dn Hlive Hw;
    (destruct queue as [|p queue]; [reflexivity|]);
    dequeue Hlive p queue Hp Hq Hd; [lia|].
  rewrite remove_loop_step by exact Hp.
  rewrite IH; [reflexivity|assumption|lia].
Qed.

Lemma remove_scan t x :
  t <> nullptr ->
  remove_loop t x (S (nodes t)) [[]] None None =
    Ok (last (filter (has_child t) (level_order t)),
        last (filter (holds t x) (level_order t))).
Proof.
  intros Ht. rewrite remove_loop_bfs.
  - rewrite !foldl_pick. unfold level_order. rewrite (proj2 (is_null_false _) Ht).
    f_equal. f_equal; destruct (last _); reflexivity.
  - constructor; [exact Ht|constructor].
  - rewrite weight_root. lia.
Qed.

(** The last element produced by a bind comes from the last entry that
    produces anything. *)
Lemma last_bind {A B : Type} (f : A -> list B) (L : list A) :
  last (L ≫= f) =
    last (filter (fun a => f a <> []) L) ≫= (fun a => last (f a)).
Proof.
  induction L as [|a L IH] using rev_ind; [reflexivity|].
  rewrite bind_app, bind_singleton, filter_app.
  destruct (decide (f a = [])) as [Hf|Hf].
  - rewrite Hf, app_nil_r, (filter_cons_False _ a []) by (intros Hn; apply Hn, Hf).
    rewrite filter_nil, app_nil_r. exact IH.
  - rewrite (filter_cons_True _ a []) by exact Hf. rewrite filter_nil, last_snoc.
    simpl. rewrite last_app. destruct (last (f a)) eqn:El; [reflexivity|].
    apply last_None in El. contradiction.
Qed.

Lemma last_children t dp :
  has_child t dp -> last (children t dp) = Some (excised t dp).
Proof.
  unfold has_child, children, excised.
  destruct (is_null (deref t (child dp Left))), (is_null (deref t (child dp Right)));
    simpl; intros Hc; congruence.
Qed.

(** The last node in level order is [excised] of the last node having a
    child, and the root when no node has a child. *)
Lemma level_order_last t :
  t <> nullptr ->
  last (level_order t) =
    Some (match last (filter (has_child t) (level_order t)) with
          | Some dp => excised t dp
          | None => []
          end).
Proof.
  intros Ht. rewrite level_order_unfold at 1 by exact Ht.
  rewrite last_cons, last_bind.
  change (fun a => children t a <> []) with (has_child t).
  destruct (last (filter (has_child t) (level_order t))) as [dp|] eqn:E; simpl;
    [|reflexivity].
  assert (Hdp : has_child t dp).
  { apply last_Some_elem_of in E. apply list_elem_of_filter in E. tauto. }
  rewrite (last_children _ _ Hdp). reflexivity.
Qed.

Lemma last_filter_last {A : Type} (P : A -> Prop) `{forall a, Decision (P a)}
    (L : list A) (a : A) :
  last L = Some a -> P a -> last (filter P L) = Some a.
Proof.
  intros Hl Pa. apply last_Some in Hl as [L' ->].
  rewrite filter_app, (filter_cons_True P a []) by exact Pa.
  rewrite filter_nil. apply last_snoc.
Qed.

(** The last node in level order has no child. *)
Lemma level_order_last_leaf t v :
  last (level_order t) = Some v -> children t v = [].
Proof.
  intros Hv. destruct (decide (t = nullptr)) as [->|Ht]; [discriminate|].
  destruct (decide (children t v = [])) as [Hc|Hc]; [exact Hc|exfalso].
  pose proof (level_order_last t Ht) as Hl.
  rewrite (last_filter_last (has_child t) _ v Hv Hc) in Hl.
  rewrite Hv in Hl. injection Hl as Hl.
  unfold excised in Hl. destruct (is_null _); symmetry in Hl;
    apply child_neq in Hl; exact Hl.
Qed.

Lemma leaf_of_no_children t v :
  live t v -> children t v = [] -> exists e, deref t v = Node e nullptr nullptr.
Proof.
  intros Hv Hc. destruct (deref t v) as [|e l r] eqn:E; [contradiction|].
  rewrite (children_node _ _ _ _ _ E) in Hc.
  destruct l, r; simpl in Hc; try discriminate. eauto.
Qed.

(** ** Writing through an address *)

Lemma live_slot_exists t p : live t p -> slot_exists t p.
Proof.
  unfold live. revert t. induction p as [|d p IH]; intros t Hp; simpl; [exact I|].
  destruct t as [|e l r].
  - simpl in Hp. destruct d; simpl in Hp; rewrite deref_nullptr in Hp; congruence.
  - apply IH. exact Hp.
Qed.

Lemma slot_exists_child t p d : live t p -> slot_exists t (child p d).
Proof.
  unfold live, child. revert t. induction p as [|d' p IH]; intros t Hp; simpl in *.
  - destruct t; [congruence|exact I].
  - destruct t as [|e l r].
    + destruct d'; simpl in Hp; rewrite deref_nullptr in Hp; congruence.
    + apply IH. exact Hp.
Qed.

Lemma deref_store_same t p s : slot_exists t p -> deref (store t p s) p = s.
Proof.
  revert t. induction p as [|d p IH]; intros t Hp; simpl; [reflexivity|].
  destruct t as [|e l r]; [contradiction|]. simpl in Hp.
  destruct d; simpl; apply IH; exact Hp.
Qed.

Lemma store_deref t p : store t p (deref t p) = t.
Proof.
  revert t. induction p as [|d p IH]; intros t; simpl; [reflexivity|].
  destruct t as [|e l r]; [reflexivity|]. destruct d; simpl; rewrite IH; reflexivity.
Qed.

Lemma nodes_store t p s :
  slot_exists t p ->
  (nodes (store t p s) + nodes (deref t p) = nodes t + nodes s)%nat.
Proof.
  revert t. induction p as [|d p IH]; intros t Hp; simpl; [lia|].
  destruct t as [|e l r]; [contradiction|]. simpl in Hp.
  destruct d; simpl in *; specialize (IH _ Hp); lia.
Qed.

Lemma same_shape_refl t : same_shape t t.
Proof. induction t; simpl; auto. Qed.

Lemma same_shape_nodes t1 t2 : same_shape t1 t2 -> nodes t1 = nodes t2.
Proof.
  revert t2. induction t1 as [|e1 l1 IHl r1 IHr]; intros [|e2 l2 r2]; simpl;
    try tauto. intros [Hl Hr]. rewrite (IHl _ Hl), (IHr _ Hr). reflexivity.
Qed.

Lemma same_shape_deref t1 t2 p :
  same_shape t1 t2 -> same_shape (deref t1 p) (deref t2 p).
Proof.
  revert t1 t2. induction p as [|d p IH]; intros t1 t2 Hs; simpl; [exact Hs|].
  apply IH. destruct t1, t2, d; simpl in *; tauto.
Qed.

Lemma same_shape_store t1 t2 p s1 s2 :
  same_shape t1 t2 -> same_shape s1 s2 ->
  same_shape (store t1 p s1) (store t2 p s2).
Proof.
  revert t1 t2. induction p as [|d p IH]; intros t1 t2 Ht Hs; simpl; [exact Hs|].
  destruct t1 as [|e1 l1 r1], t2 as [|e2 l2 r2]; simpl in *; try tauto.
  destruct Ht as [Hl Hr]. destruct d; simpl; split; auto.
Qed.

Lemma same_shape_is_null t1 t2 : same_shape t1 t2 -> is_null t1 = is_null t2.
Proof. destruct t1, t2; simpl; tauto. Qed.

Lemma set_element_shape t p e : same_shape (set_element t p e) t.
Proof.
  unfold set_element. destruct (deref t p) as [|e0 l r] eqn:E;
    [apply same_shape_refl|].
  rewrite <- (store_deref t p) at 2. rewrite E.
  apply same_shape_store; [apply same_shape_refl|].
  simpl. split; apply same_shape_refl.
Qed.

Lemma nodes_set_element t p e : nodes (set_element t p e) = nodes t.
Proof. apply same_shape_nodes, set_element_shape. Qed.

Lemma elem_at_set_element_same t p e : live t p -> elem_at (set_element t p e) p = Some e.
Proof.
  intros Hp. unfold set_element, elem_at.
  destruct (deref t p) as [|e0 l r] eqn:E; [contradiction|].
  rewrite deref_store_same; [reflexivity|].
  apply live_slot_exists. unfold live. rewrite E. discriminate.
Qed.

(** ** Stored elements *)

Lemma stored_holds t x : stored x t <-> exists p, holds t x p.
Proof.
  unfold holds, elem_at. split.
  - induction t as [|e l IHl r IHr]; simpl; [tauto|].
    intros [He|[Hl|Hr]].
    + exists []. simpl. congruence.
    + destruct (IHl Hl) as [p Hp]. exists (Left :: p). exact Hp.
    + destruct (IHr Hr) as [p Hp]. exists (Right :: p). exact Hp.
  - intros [p Hp]. revert t Hp. induction p as [|d p IH]; intros t Hp.
    + simpl in Hp. destruct t; [discriminate|]. simpl. left. congruence.
    + destruct t as [|e l r];
        [destruct d; simpl in Hp; rewrite deref_nullptr in Hp; discriminate|].
      simpl. right. destruct d; [left|right]; apply IH; exact Hp.
Qed.

Lemma holds_live t x p : holds t x p -> live t p.
Proof. unfold holds, elem_at, live. destruct (deref t p); congruence. Qed.

Lemma last_filter_is_Some {A : Type} (P : A -> Prop) `{forall a, Decision (P a)}
    (L : list A) (a : A) :
  a ∈ L -> P a -> exists a', last (filter P L) = Some a' /\ P a' /\ a' ∈ L.
Proof.
  intros Ha Pa. destruct (last (filter P L)) as [a'|] eqn:E.
  - exists a'. split; [reflexivity|].
    apply last_Some_elem_of, list_elem_of_filter in E. exact E.
  - apply last_None in E. exfalso.
    eapply (filter_nil_not_elem_of P); eauto.
Qed.

Lemma last_filter_None {A : Type} (P : A -> Prop) `{forall a, Decision (P a)}
    (L : list A) :
  (forall a, a ∈ L -> ~ P a) -> last (filter P L) = None.
Proof.
  intros Hn. apply last_None. induction L as [|a L IH]; [reflexivity|].
  rewrite filter_cons_False by (apply Hn; left).
  apply IH. intros a' Ha'. apply Hn. right. exact Ha'.
Qed.

(** ** [remove] *)

(** Removing an element that is not stored changes nothing. *)
Lemma remove_absent x b : ~ stored x (root b) -> remove x b = Ok b.
Proof.
  intros Hx. unfold remove. destruct (root b) as [|e l r] eqn:E; [reflexivity|].
  rewrite <- E in *. rewrite remove_scan by (rewrite E; discriminate).
  rewrite (last_filter_None (holds (root b) x)); [reflexivity|].
  intros p _ Hp. apply Hx, stored_holds. eauto.
Qed.

(** Removing the element of a single-node tree clears the tree. *)
Lemma remove_single x b :
  root b = Node x nullptr nullptr -> remove x b = Ok (mkTree nullptr 0).
Proof.
  intros E. unfold remove. rewrite E. simpl.
  destruct (decide (x = x)); [reflexivity|congruence].
Qed.

Lemma has_child_root t : (1 < nodes t)%nat -> has_child t [].
Proof.
  destruct t as [|e l r]; simpl; [lia|]. intros Hn.
  apply (has_child_node _ [] e l r); [reflexivity|].
  destruct l, r; simpl in *; try reflexivity. lia.
Qed.

(** What [remove] does to a tree of several nodes that stores the element:
    the element of the last node in level order is written into the last
    node in level order that holds [x], the last node, a leaf, is cut off,
    and the size goes down by one. *)
Lemma remove_present x b :
  stored x (root b) -> (1 < nodes (root b))%nat ->
  exists pd v e,
    last (filter (holds (root b) x) (level_order (root b))) = Some pd /\
    last (level_order (root b)) = Some v /\
    deref (root b) v = Node e nullptr nullptr /\
    remove x b =
      Ok (mkTree (store (set_element (root b) pd e) v nullptr) (treeSize b - 1)).
Proof.
  intros Hx Hn.
  assert (Ht : root b <> nullptr)
    by (intros Hnull; rewrite Hnull in Hn; simpl in Hn; lia).
  apply stored_holds in Hx as [p Hp].
  destruct (last_filter_is_Some (holds (root b) x) (level_order (root b)) p)
    as (pd & Hpd & _ & _);
    [apply level_order_complete; eapply holds_live; exact Hp|exact Hp|].
  destruct (last_filter_is_Some (has_child (root b)) (level_order (root b)) [])
    as (dp & Hdp & _ & _);
    [apply level_order_complete; exact Ht|apply has_child_root; exact Hn|].
  pose proof (level_order_last (root b) Ht) as Hlast. rewrite Hdp in Hlast.
  assert (Hv : live (root b) (excised (root b) dp)).
  { pose proof (level_order_live (root b)) as Hl. rewrite list.Forall_forall in Hl.
    apply Hl. eapply last_Some_elem_of. exact Hlast. }
  destruct (leaf_of_no_children _ _ Hv (level_order_last_leaf _ _ Hlast)) as [e He].
  exists pd, (excised (root b) dp), e. split_and!; try assumption.
  unfold remove. destruct (root b) as [|e0 l0 r0] eqn:Et; [congruence|].
  rewrite <- Et in *. rewrite remove_scan by exact Ht. simpl.
  rewrite Hpd, Hdp, He. reflexivity.
Qed.

Lemma nodes_remove_result t pd v e :
  deref t v = Node e nullptr nullptr ->
  S (nodes (store (set_element t pd e) v nullptr)) = nodes t.
Proof.
  intros Hv. pose proof (set_element_shape t pd e) as Hs.
  pose proof (same_shape_deref _ _ v Hs) as Hd. rewrite Hv in Hd.
  destruct (deref (set_element t pd e) v) as [|e' l' r'] eqn:E; [contradiction|].
  simpl in Hd. destruct l', r'; simpl in Hd; try tauto.
  assert (Hl : live (set_element t pd e) v) by (unfold live; rewrite E; discriminate).
  pose proof (nodes_store _ v nullptr (live_slot_exists _ _ Hl)) as Hn.
  rewrite E, (same_shape_nodes _ _ Hs) in Hn. simpl in Hn. lia.
Qed.

(** ** The two searches *)

Lemma bfsearch_loop_spec x fuel (queue : list (tree T)) :
  Forall (fun n => n <> nullptr) queue ->
  (sum_list_with nodes queue < fuel)%nat ->
  bfsearch_loop x fuel queue = Ok (bool_decide (Exists (stored x) queue)).
Proof.
  revert queue. induction fuel as [|fuel IH]; intros queue Hq Hw; [lia|].
  destruct queue as [|n queue]; simpl.
  - reflexivity.
  - apply list.Forall_cons in Hq as [Hn Hq]. destruct n as [|e l r]; [congruence|].
    destruct (decide (e = x)) as [He|He].
    + rewrite bool_decide_eq_true_2; [reflexivity|]. left. simpl. auto.
    + simpl in Hw. rewrite IH.
      * f_equal. apply bool_decide_ext.
        destruct l as [|le ll lr], r as [|re rl rr]; simpl;
          rewrite ?list.Exists_app, ?List.Exists_cons, ?List.Exists_nil; simpl; tauto.
      * destruct l, r; simpl; rewrite ?list.Forall_app; repeat split;
          try assumption; repeat constructor; discriminate.
      * destruct l, r; simpl; rewrite ?sum_list_with_app; simpl in *; lia.
Qed.

(** [bfsearch] answers whether the element is stored. *)
Lemma bfsearch_spec x b : bfsearch x b = Ok (bool_decide (stored x (root b))).
Proof.
  unfold bfsearch. destruct (root b) as [|e l r] eqn:E.
  - rewrite bool_decide_eq_false_2; [reflexivity|]. simpl. tauto.
  - rewrite bfsearch_loop_spec.
    + f_equal. apply bool_decide_ext.
      rewrite List.Exists_cons, List.Exists_nil. tauto.
    + repeat constructor. discriminate.
    + simpl. lia.
Qed.

Lemma dfsearch_loop_spec x fuel (treeStack : list (tree T)) (currentNode : tree T) :
  Forall (fun n => n <> nullptr) treeStack ->
  (2 * nodes currentNode + stack_weight treeStack < fuel)%nat ->
  dfsearch_loop x fuel treeStack currentNode =
    Ok (bool_decide (stored x currentNode \/ Exists (pending x) treeStack)).
Proof.
  revert treeStack currentNode.
  induction fuel as [|fuel IH]; intros treeStack currentNode Hst Hw; [lia|].
  destruct currentNode as [|e l r]; simpl.
  - destruct treeStack as [|top treeStack].
    + reflexivity.
    + apply list.Forall_cons in Hst as [Hn Hst].
      destruct top as [|e l r]; [congruence|].
      destruct (decide (e = x)) as [He|He].
      * rewrite bool_decide_eq_true_2; [reflexivity|].
        right. left. simpl. auto.
      * rewrite IH.
        -- f_equal. apply bool_decide_ext.
           rewrite List.Exists_cons. simpl. tauto.
        -- exact Hst.
        -- unfold stack_weight in *. simpl in *. lia.
  - rewrite IH.
    + f_equal. apply bool_decide_ext. rewrite List.Exists_cons. simpl. tauto.
    + constructor; [discriminate|exact Hst].
    + unfold stack_weight in *. simpl in *. lia.
Qed.

(** [dfsearch] answers whether the element is stored. *)
Lemma dfsearch_spec x b : dfsearch x b = Ok (bool_decide (stored x (root b))).
Proof.
  unfold dfsearch. destruct (root b) as [|e l r] eqn:E.
  - rewrite bool_decide_eq_false_2; [reflexivity|]. simpl. tauto.
  - rewrite dfsearch_loop_spec.
    + f_equal. apply bool_decide_ext.
      rewrite List.Exists_cons, List.Exists_nil. simpl. tauto.
    + repeat constructor. discriminate.
    + unfold stack_weight. simpl. lia.
Qed.

(** ** [depth] and [height] of an element that is not stored *)

Lemma getDepth_absent t x d : ~ stored x t -> getDepth t x d = (-1)%Z.
Proof.
  revert d. induction t as [|e l IHl r IHr]; intros d Hx; simpl; [reflexivity|].
  simpl in Hx. destruct (decide (e = x)) as [He|He]; [tauto|].
  rewrite IHl, IHr by tauto. reflexivity.
Qed.

Lemma depth_absent x b : ~ stored x (root b) -> depth x b = (-1)%Z.
Proof.
  unfold depth. destruct (root b) as [|e l r]; simpl; [reflexivity|]. intros Hx.
  destruct (decide (e = x)) as [He|He]; [tauto|].
  rewrite !getDepth_absent by tauto. reflexivity.
Qed.

Lemma getHeight_absent t x h : ~ stored x t -> getHeight t x h false = (-1)%Z.
Proof.
  revert h. induction t as [|e l IHl r IHr]; intros h Hx; simpl; [reflexivity|].
  simpl in Hx. rewrite bool_decide_eq_false_2 by tauto.
  rewrite IHl, IHr by tauto. reflexivity.
Qed.

Lemma height_absent x b : ~ stored x (root b) -> height x b = (-1)%Z.
Proof.
  unfold height. destruct (root b) as [|e l r] eqn:E; [reflexivity|].
  apply getHeight_absent.
Qed.

(** ** [insert] on any tree *)

Lemma deref_child_node t p e l r d :
  deref t p = Node e l r -> deref t (child p d) = match d with Left => l | Right => r end.
Proof. intros Hp. rewrite deref_child, Hp. destruct d; reflexivity. Qed.

(** The loop either returns on a duplicate or hangs a new leaf into an empty
    slot of an existing node. *)
Lemma insert_loop_outcome t x fuel queue :
  queue <> [] -> Forall (live t) queue -> (weight t queue <= fuel)%nat ->
  insert_loop t x fuel queue = Ok None \/
  exists p d, live t p /\ deref t (child p d) = nullptr /\
    insert_loop t x fuel queue =
      Ok (Some (store t (child p d) (Node x nullptr nullptr))).
Proof.
  revert queue. induction fuel as [|fuel IH]; intros queue Hne Hlive Hw;
    (destruct queue as [|p queue]; [congruence|]);
    dequeue Hlive p queue Hp Hq Hd; [lia|].
  simpl. destruct (deref t p) as [|e l r] eqn:E; [contradiction|].
  destruct l as [|le ll lr].
  { right. exists p, Left. split_and!; [exact Hp| |reflexivity].
    apply (deref_child_node _ _ _ _ _ Left E). }
  destruct (decide (le = x)); [left; reflexivity|].
  destruct r as [|re rl rr].
  { right. exists p, Right. split_and!; [exact Hp| |reflexivity].
    apply (deref_child_node _ _ _ _ _ Right E). }
  destruct (decide (re = x)); [left; reflexivity|].
  replace ((queue ++ [child p Left]) ++ [child p Right])
    with (queue ++ children t p)
    by (rewrite (children_node _ _ _ _ _ E), <- app_assoc; reflexivity).
  apply IH; [|assumption|lia].
  rewrite (children_node _ _ _ _ _ E). destruct queue; discriminate.
Qed.

Lemma nodes_store_leaf t p d x :
  live t p -> deref t (child p d) = nullptr ->
  nodes (store t (child p d) (Node x nullptr nullptr)) = S (nodes t).
Proof.
  intros Hp Hc. pose proof (nodes_store t (child p d) (Node x nullptr nullptr)
    (slot_exists_child _ _ d Hp)) as Hn.
  rewrite Hc in Hn. simpl in Hn. lia.
Qed.

(** [insert] always returns, and either leaves the object alone or adds one
    node and one to [treeSize]. *)
Lemma insert_outcome x b :
  insert x b = Ok b \/
  exists t, insert x b = Ok (mkTree t (treeSize b + 1)) /\
    nodes t = S (nodes (root b)).
Proof.
  unfold insert. destruct (root b) as [|e l r] eqn:E.
  - right. eexists. split; reflexivity.
  - destruct (decide (e = x)); [left; reflexivity|].
    rewrite <- E.
    destruct (insert_loop_outcome (root b) x (nodes (root b)) [[]])
      as [Hr|(p & d & Hp & Hc & Hr)]; try rewrite Hr; simpl.
    + discriminate.
    + repeat constructor. unfold live. rewrite E. discriminate.
    + unfold weight. simpl. lia.
    + left. reflexivity.
    + right. eexists. split; [reflexivity|]. apply nodes_store_leaf; assumption.
Qed.

(** ** [insert] on a complete tree *)

Lemma index_nil : index [] = 1%nat.
Proof. reflexivity. Qed.

Lemma index_child p d :
  index (child p d) =
    match d with Left => 2 * index p | Right => 2 * index p + 1 end%nat.
Proof. unfold index, child. rewrite foldl_snoc. reflexivity. Qed.

Lemma index_pos p : (1 <= index p)%nat.
Proof.
  induction p as [|d p IH] using rev_ind; [rewrite index_nil; lia|].
  fold (child p d). rewrite index_child. destruct d; lia.
Qed.

Lemma index_snoc p d :
  index (p ++ [d]) =
    match d with Left => 2 * index p | Right => 2 * index p + 1 end%nat.
Proof. apply index_child. Qed.

Lemma index_inj p q : index p = index q -> p = q.
Proof.
  revert q. induction p as [|d p IH] using rev_ind; intros q;
    destruct q as [|d' q _] using rev_ind;
    rewrite ?index_snoc, ?index_nil; intros Hi.
  - reflexivity.
  - pose proof (index_pos q). destruct d'; lia.
  - pose proof (index_pos p). destruct d; lia.
  - destruct d, d'; try (f_equal; apply IH; lia); exfalso; lia.
Qed.

Lemma complete_live t (xs : list T) p :
  complete_with t xs -> live t p <-> (index p <= length xs)%nat.
Proof.
  intros Hc. specialize (Hc p). unfold live, elem_at in *.
  pose proof (index_pos p). split.
  - intros Hp. destruct (deref t p); [congruence|].
    symmetry in Hc. apply lookup_lt_Some in Hc. lia.
  - intros Hi Hp. rewrite Hp in Hc. symmetry in Hc.
    apply lookup_ge_None in Hc. lia.
Qed.

Lemma complete_elem t (xs : list T) p e l r :
  complete_with t xs -> deref t p = Node e l r -> e ∈ xs.
Proof.
  intros Hc Hp. specialize (Hc p). unfold elem_at in Hc. rewrite Hp in Hc.
  symmetry in Hc. eapply list_elem_of_lookup_2. exact Hc.
Qed.

Lemma seq_two_more k :
  seq (S k + 1) (S k + 1) = seq (S (S k)) k ++ [2 * S k; 2 * S k + 1]%nat.
Proof.
  replace (seq (S k + 1) (S k + 1)) with (seq (S (S k)) (k + 2))
    by (f_equal; lia).
  rewrite seq_app. f_equal. simpl. repeat f_equal; lia.
Qed.

(** On a complete tree holding [xs], the loop, having gone through the
    nodes at positions [1 .. k], hangs a new element into the slot at
    position [length xs + 1]. *)
Lemma insert_loop_complete t (xs : list T) y fuel k queue :
  complete_with t xs -> y ∉ xs ->
  index <$> queue = seq (k + 1) (k + 1) ->
  (2 * k + 1 <= length xs)%nat -> (length xs <= fuel + k)%nat ->
  exists p, index p = S (length xs) /\ slot_exists t p /\ deref t p = nullptr /\
    insert_loop t y fuel queue = Ok (Some (store t p (Node y nullptr nullptr))).
Proof.
  intros Hc Hy. revert k queue.
  induction fuel as [|fuel IH]; intros k queue Hq Hk Hf; [lia|].
  destruct queue as [|p queue]; [rewrite Nat.add_1_r in Hq; discriminate|].
  rewrite fmap_cons, Nat.add_1_r in Hq.
  change (seq (S k) (S k)) with (S k :: seq (S (S k)) k) in Hq.
  injection Hq as Hp Hq.
  assert (Hlive : live t p) by (apply (complete_live t xs p Hc); lia).
  simpl. destruct (deref t p) as [|e l r] eqn:E; [contradiction|].
  pose proof (deref_child_node _ _ _ _ _ Left E) as Hl.
  pose proof (deref_child_node _ _ _ _ _ Right E) as Hr.
  pose proof (complete_live t xs (child p Left) Hc) as Hll.
  pose proof (complete_live t xs (child p Right) Hc) as Hlr.
  unfold live in Hll, Hlr. rewrite Hl in Hll. rewrite Hr in Hlr.
  rewrite index_child in Hll, Hlr.
  destruct l as [|le ll lr].
  { exists (child p Left). rewrite index_child. split_and!; try reflexivity.
    - destruct (decide (2 * index p <= length xs)%nat) as [Hi|Hi]; [|lia].
      apply Hll in Hi. congruence.
    - apply slot_exists_child. exact Hlive.
    - exact Hl. }
  destruct (decide (le = y)) as [->|Hle].
  { exfalso. apply Hy. eapply (complete_elem t xs (child p Left)); eauto. }
  destruct r as [|re rl rr].
  { exists (child p Right). rewrite index_child. split_and!; try reflexivity.
    - destruct (decide (2 * index p + 1 <= length xs)%nat) as [Hi|Hi].
      + apply Hlr in Hi. congruence.
      + assert (2 * index p <= length xs)%nat by (apply Hll; discriminate). lia.
    - apply slot_exists_child. exact Hlive.
    - exact Hr. }
  destruct (decide (re = y)) as [->|Hre].
  { exfalso. apply Hy. eapply (complete_elem t xs (child p Right)); eauto. }
  assert (2 * index p + 1 <= length xs)%nat by (apply Hlr; discriminate).
  apply (IH (S k)); [|lia|lia].
  rewrite !fmap_app, Hq, seq_two_more, <- app_assoc.
  simpl. rewrite !index_child, Hp. reflexivity.
Qed.

Lemma elem_at_nullptr p : elem_at (@nullptr T) p = None.
Proof. unfold elem_at. rewrite deref_nullptr. reflexivity. Qed.

(** Hanging a leaf into an empty slot changes the element at that address
    and at no other. *)
Lemma elem_at_store_leaf t p y q :
  slot_exists t p -> deref t p = nullptr ->
  elem_at (store t p (Node y nullptr nullptr)) q =
    if decide (q = p) then Some y else elem_at t q.
Proof.
  revert t q. induction p as [|d p IH]; intros t q Hs Hp.
  - simpl in *. subst t. destruct q as [|d q].
    + reflexivity.
    + rewrite elem_at_nullptr. unfold elem_at. simpl.
      destruct d; simpl; rewrite deref_nullptr; reflexivity.
  - destruct t as [|e l r]; [contradiction|]. simpl in Hs.
    destruct q as [|d' q].
    + destruct d; reflexivity.
    + destruct d, d'; simpl in *; unfold elem_at in *; simpl;
        try (rewrite (IH _ q Hs Hp));
        repeat case_decide; try congruence; reflexivity.
Qed.

Lemma complete_with_snoc t (xs : list T) y p :
  complete_with t xs -> index p = S (length xs) ->
  slot_exists t p -> deref t p = nullptr ->
  complete_with (store t p (Node y nullptr nullptr)) (xs ++ [y]).
Proof.
  intros Hc Hi Hs Hp q. rewrite elem_at_store_leaf by assumption.
  case_decide as Hq.
  - subst q. rewrite Hi. simpl. rewrite Nat.sub_0_r.
    symmetry. apply list_lookup_middle. reflexivity.
  - assert (index q <> S (length xs)).
    { intros Heq. apply Hq, index_inj. congruence. }
    pose proof (index_pos q). rewrite Hc.
    destruct (decide (index q - 1 < length xs)%nat).
    + rewrite lookup_app_l by assumption. reflexivity.
    + rewrite !lookup_ge_None_2; [reflexivity| |lia].
      rewrite length_app. simpl. lia.
Qed.

Lemma complete_with_nil : complete_with (@nullptr T) [].
Proof. intros p. rewrite elem_at_nullptr. reflexivity. Qed.

Lemma complete_nullptr (xs : list T) : complete_with nullptr xs -> xs = [].
Proof.
  intros Hc. specialize (Hc []). rewrite elem_at_nullptr in Hc.
  destruct xs; [reflexivity|discriminate].
Qed.

Lemma inserts_snoc (xs : list T) y b :
  inserts (xs ++ [y]) b = do b' <- inserts xs b; insert y b'.
Proof. unfold inserts. rewrite foldl_snoc. reflexivity. Qed.

(** Inserting one more element into the complete tree of [xs]. *)
Lemma insert_complete t (xs : list T) y n :
  complete_with t xs -> nodes t = length xs -> y ∉ xs ->
  exists t', insert y (mkTree t n) = Ok (mkTree t' (n + 1)) /\
    complete_with t' (xs ++ [y]) /\ nodes t' = S (length xs).
Proof.
  intros Hc Hn Hy. unfold insert. simpl.
  destruct t as [|e l r] eqn:Et.
  - apply complete_nullptr in Hc as ->. eexists. split_and!; try reflexivity.
    apply (complete_with_snoc nullptr [] y []);
      [apply complete_with_nil|reflexivity|exact I|reflexivity].
  - rewrite <- Et in *.
    assert (He : e ∈ xs).
    { apply (complete_elem t xs [] e l r Hc). rewrite Et. reflexivity. }
    destruct (decide (e = y)) as [->|Hne]; [contradiction|].
    destruct (insert_loop_complete t xs y (nodes t) 0 [[]] Hc Hy)
      as (p & Hi & Hs & Hp & Hr); [reflexivity| |lia|].
    { rewrite <- Hn, Et. simpl. lia. }
    rewrite Hr. simpl. eexists. split_and!; [reflexivity| |].
    + apply complete_with_snoc; assumption.
    + pose proof (nodes_store t p (Node y nullptr nullptr) Hs) as Hs'.
      rewrite Hp in Hs'. simpl in Hs'. lia.
Qed.

(** ** The constructors *)

(** Two trees holding the same elements at the same addresses are equal. *)
Lemma tree_ext t1 t2 : (forall p, elem_at t1 p = elem_at t2 p) -> t1 = t2.
Proof.
  revert t2. induction t1 as [|e1 l1 IHl r1 IHr]; intros [|e2 l2 r2] Hext;
    try (specialize (Hext []); discriminate); [reflexivity|].
  pose proof (Hext []) as He. injection He as ->.
  f_equal; [apply IHl|apply IHr]; intros p.
  - apply (Hext (Left :: p)).
  - apply (Hext (Right :: p)).
Qed.

Lemma elem_at_None t p : elem_at t p = None <-> deref t p = nullptr.
Proof. unfold elem_at. destruct (deref t p); split; congruence. Qed.

Lemma elem_at_below_nullptr t p q :
  deref t p = nullptr -> elem_at t (p ++ q) = None.
Proof.
  intros Hp. apply elem_at_None. rewrite deref_app, Hp. apply deref_nullptr.
Qed.

Lemma slot_exists_live t p d : slot_exists t (child p d) -> live t p.
Proof.
  unfold live, child. revert t. induction p as [|d' p IH]; intros t Hs; simpl in *.
  - destruct t; [contradiction|discriminate].
  - destruct t as [|e l r]; [contradiction|]. apply IH. exact Hs.
Qed.

Lemma slot_exists_prefix t p p' :
  slot_exists t p -> p' `prefix_of` p -> p' <> p -> live t p'.
Proof.
  intros Hs [k ->] Hne. destruct k as [|d k]; [rewrite app_nil_r in Hne; congruence|].
  clear Hne. revert t Hs. induction p' as [|d' p' IH]; intros t Hs; simpl in *.
  - unfold live. simpl. destruct t; [contradiction|discriminate].
  - destruct t as [|e l r]; [contradiction|]. apply IH in Hs. exact Hs.
Qed.

Lemma slot_exists_store_leaf t p y q :
  deref t p = nullptr -> slot_exists t q ->
  slot_exists (store t p (Node y nullptr nullptr)) q.
Proof.
  revert t q. induction p as [|d p IH]; intros t q Hp Hs.
  - simpl in Hp. subst t. destruct q; [exact I|contradiction].
  - destruct t as [|e l r]; [exact Hs|].
    destruct q as [|d' q]; [exact I|].
    destruct d, d'; simpl in *; auto.
Qed.

Lemma NoDup_children t p : NoDup (children t p).
Proof.
  unfold children.
  destruct (is_null _), (is_null _); simpl; repeat constructor;
    rewrite ?elem_of_nil, ?list_elem_of_singleton; unfold child; try tauto.
  intros Heq. apply app_inv_head in Heq. discriminate.
Qed.

Lemma prefix_child_inv p q :
  p `prefix_of` q -> q <> p -> exists d, child p d `prefix_of` q.
Proof.
  intros [k ->] Hne. destruct k as [|d' k]; [rewrite app_nil_r in Hne; congruence|].
  exists d'. exists k. unfold child. rewrite <- app_assoc. reflexivity.
Qed.

Lemma copy_loop_step (src dst : tree T) fuel n p queue e l r :
  deref src p = Node e l r ->
  copy_loop (S fuel) dst n (p :: queue) (deref src <$> (p :: queue)) =
    copy_loop fuel (store dst p (Node e nullptr nullptr)) (n + 1)
      (queue ++ children src p) (deref src <$> (queue ++ children src p)).
Proof.
  intros E. rewrite fmap_cons, E. cbn [copy_loop].
  rewrite (children_node _ _ _ _ _ E).
  pose proof (deref_child_node _ _ _ _ _ Left E) as Hl.
  pose proof (deref_child_node _ _ _ _ _ Right E) as Hr.
  destruct l, r; cbn [is_null app]; rewrite ?fmap_app, ?app_nil_r, <- ?app_assoc;
    cbn [app fmap list_fmap]; rewrite ?Hl, ?Hr; reflexivity.
Qed.

(** The loop of the copy constructor rebuilds the source tree. *)
Lemma copy_loop_spec (src dst : tree T) fuel n queue :
  Forall (live src) queue -> NoDup queue -> Forall (slot_exists dst) queue ->
  (forall p, elem_at dst p = if decide (cut queue p) then None else elem_at src p) ->
  (weight src queue < fuel)%nat ->
  copy_loop fuel dst n queue (deref src <$> queue) =
    Ok (mkTree src (n + Z.of_nat (weight src queue))).
Proof.
  revert dst n queue.
  induction fuel as [|fuel IH]; intros dst n queue Hlive Hnd Hslots Hfill Hw; [lia|].
  destruct queue as [|p queue].
  - simpl. f_equal. f_equal; [|unfold weight; simpl; lia].
    apply tree_ext. intros p. rewrite Hfill.
    case_decide as Hc; [inversion Hc|reflexivity].
  - dequeue Hlive p queue Hp Hlive Hd.
    apply NoDup_cons in Hnd as [Hpq Hnd].
    apply list.Forall_cons in Hslots as [Hps Hslots].
    destruct (deref src p) as [|e l r] eqn:E; [contradiction|].
    rewrite (copy_loop_step _ dst fuel n _ queue _ _ _ E).
    assert (Hdp : deref dst p = nullptr).
    { apply elem_at_None. rewrite Hfill. rewrite decide_True; [reflexivity|].
      left. reflexivity. }
    assert (Hnocut : forall s : addr, s ∈ queue -> ~ s `prefix_of` p).
    { intros s Hs Hpre. destruct (decide (s = p)) as [->|Hne]; [contradiction|].
      pose proof (slot_exists_prefix _ _ _ Hps Hpre Hne) as Hl.
      apply Hl, elem_at_None. rewrite Hfill. rewrite decide_True; [reflexivity|].
      right. apply list.Exists_exists. exists s. split; [exact Hs|reflexivity]. }
    rewrite IH.
    + f_equal. f_equal. lia.
    + assumption.
    + apply NoDup_app. split_and!; [exact Hnd| |apply NoDup_children].
      intros s Hs Hc. apply children_spec in Hc as (d & -> & _).
      rewrite list.Forall_forall in Hslots. apply Hslots, slot_exists_live in Hs.
      apply Hs. exact Hdp.
    + apply list.Forall_app. split.
      * eapply Forall_impl; [exact Hslots|]. intros s Hs.
        apply slot_exists_store_leaf; assumption.
      * apply list.Forall_forall. intros c Hc.
        apply children_spec in Hc as (d & -> & _).
        apply slot_exists_child. unfold live.
        rewrite deref_store_same by exact Hps. discriminate.
    + intros q. rewrite (elem_at_store_leaf _ _ _ _ Hps Hdp), Hfill.
      destruct (decide (q = p)) as [->|Hqp].
      * rewrite decide_False.
        -- unfold elem_at. rewrite E. reflexivity.
        -- unfold cut. rewrite list.Exists_app, !list.Exists_exists.
           intros [(s & Hs & Hpre)|(s & Hs & Hpre)].
           ++ exact (Hnocut s Hs Hpre).
           ++ apply children_spec in Hs as (d & -> & _).
              apply prefix_snoc_not in Hpre. exact Hpre.
      * destruct (decide (cut (p :: queue) q)) as [Hc|Hc].
        -- case_decide as Hc'; [reflexivity|]. symmetry.
           apply List.Exists_cons in Hc as [Hpre|Hc].
           ++ destruct (prefix_child_inv p q Hpre Hqp) as (d & k & ->).
              apply elem_at_below_nullptr.
              destruct (deref src (child p d)) eqn:Ed; [reflexivity|exfalso].
              apply Hc'. unfold cut. apply list.Exists_app. right.
              apply list.Exists_exists. exists (child p d). split.
              ** apply children_spec. exists d. split; [reflexivity|].
                 unfold live. rewrite Ed. discriminate.
              ** exists k. reflexivity.
           ++ exfalso. apply Hc'. unfold cut. apply list.Exists_app. left. exact Hc.
        -- rewrite decide_False; [reflexivity|].
           unfold cut. rewrite list.Exists_app, !list.Exists_exists.
           intros [(s & Hs & Hpre)|(s & Hs & Hpre)]; apply Hc.
           ++ right. apply list.Exists_exists. eauto.
           ++ left. apply children_spec in Hs as (d & -> & _).
              eapply prefix_app_l. exact Hpre.
    + lia.
Qed.

(** The copy constructor, given a tree with a root, builds the same tree
    and counts its nodes. *)
Lemma copy_ctor_spec (a : BinaryTree T) :
  root a <> nullptr ->
  copy_ctor a = Ok (mkTree (root a) (Z.of_nat (nodes (root a)))).
Proof.
  intros Ha. unfold copy_ctor.
  change [root a] with (deref (root a) <$> [[]]).
  rewrite copy_loop_spec.
  - rewrite weight_root. reflexivity.
  - repeat constructor. exact Ha.
  - repeat constructor. apply not_elem_of_nil.
  - repeat constructor.
  - intros p. rewrite elem_at_nullptr, decide_True; [reflexivity|].
    left. apply prefix_nil.
  - rewrite weight_root. lia.
Qed.

(** Given the empty tree, the copy constructor dereferences [nullptr]. *)
Lemma copy_ctor_empty (a : BinaryTree T) : root a = nullptr -> copy_ctor a = Fault.
Proof. intros Ha. unfold copy_ctor. rewrite Ha. reflexivity. Qed.

Lemma move_loop_copy_loop fuel (dst : tree T) n queue (moveTreeQueue : list (tree T)) :
  move_loop fuel dst n queue moveTreeQueue = copy_loop fuel dst n queue moveTreeQueue.
Proof.
  revert dst n queue moveTreeQueue.
  induction fuel as [|fuel IH]; intros dst n queue moveTreeQueue; [reflexivity|].
  destruct moveTreeQueue as [|moveNode moveTreeQueue]; [reflexivity|].
  destruct queue as [|currentNode queue]; [reflexivity|].
  destruct moveNode as [|e l r]; [reflexivity|].
  cbn [move_loop copy_loop]. destruct (is_null l), (is_null r); apply IH.
Qed.

(** The move constructor, given a tree with a root, builds the same tree
    and leaves the source empty. *)
Lemma move_ctor_spec (a : BinaryTree T) :
  root a <> nullptr ->
  move_ctor a =
    Ok (mkTree (root a) (Z.of_nat (nodes (root a))), mkTree nullptr 0).
Proof.
  intros Ha. unfold move_ctor. rewrite move_loop_copy_loop.
  fold (copy_ctor a). rewrite copy_ctor_spec by exact Ha. reflexivity.
Qed.

(** Given the empty tree, the move constructor dereferences [nullptr]. *)
Lemma move_ctor_empty (a : BinaryTree T) : root a = nullptr -> move_ctor a = Fault.
Proof. intros Ha. unfold move_ctor. rewrite Ha. reflexivity. Qed.

(** ** The size invariant *)

Lemma nodes_invert t : nodes (invert t) = nodes t.
Proof. induction t as [|e l IHl r IHr]; simpl; [reflexivity|]. lia. Qed.

Lemma size_consistent_default : size_consistent (@empty_tree T).
Proof. reflexivity. Qed.

Lemma size_consistent_clear b : size_consistent (clear b).
Proof. reflexivity. Qed.

Lemma size_consistent_insert x b b' :
  size_consistent b -> insert x b = Ok b' -> size_consistent b'.
Proof.
  unfold size_consistent. intros Hb Hi.
  destruct (insert_outcome x b) as [Hr|(t & Hr & Hn)]; rewrite Hr in Hi;
    injection Hi as <-; [exact Hb|]. simpl. rewrite Hn, Hb. lia.
Qed.

(** [remove] always returns: the object unchanged, the cleared object, or
    the object with one node less and [treeSize] one lower. *)
Lemma remove_outcome x b :
  remove x b = Ok b \/
  (nodes (root b) = 1%nat /\ remove x b = Ok (mkTree nullptr 0)) \/
  exists t, remove x b = Ok (mkTree t (treeSize b - 1)) /\
    S (nodes t) = nodes (root b).
Proof.
  destruct (decide (stored x (root b))) as [Hx|Hx];
    [|left; apply remove_absent; exact Hx].
  destruct (decide (1 < nodes (root b))%nat) as [Hn|Hn].
  - right. right.
    destruct (remove_present x b Hx Hn) as (pd & v & e & _ & _ & Hv & Hr).
    eexists. split; [exact Hr|]. apply nodes_remove_result. exact Hv.
  - right. left. destruct (root b) as [|e l r] eqn:E; [contradiction|].
    destruct l, r; simpl in Hn; try lia. simpl in Hx.
    destruct Hx as [->|[[]|[]]]. split; [reflexivity|].
    apply remove_single. exact E.
Qed.

Lemma size_consistent_remove x b b' :
  size_consistent b -> remove x b = Ok b' -> size_consistent b'.
Proof.
  unfold size_consistent. intros Hb Hi.
  destruct (remove_outcome x b) as [Hr|[[_ Hr]|(t & Hr & Hn)]]; rewrite Hr in Hi;
    injection Hi as <-; [exact Hb|reflexivity|]. simpl. rewrite Hb. lia.
Qed.

Lemma size_consistent_invertTree b : size_consistent b -> size_consistent (invertTree b).
Proof. unfold size_consistent. simpl. rewrite nodes_invert. auto. Qed.

Lemma size_consistent_copy_ctor (a b : BinaryTree T) :
  copy_ctor a = Ok b -> size_consistent b.
Proof.
  destruct (decide (root a = nullptr)) as [Ha|Ha].
  - rewrite copy_ctor_empty by exact Ha. discriminate.
  - rewrite copy_ctor_spec by exact Ha. intros [= <-]. reflexivity.
Qed.

Lemma size_consistent_move_ctor (a b a' : BinaryTree T) :
  move_ctor a = Ok (b, a') -> size_consistent b /\ size_consistent a'.
Proof.
  destruct (decide (root a = nullptr)) as [Ha|Ha].
  - rewrite move_ctor_empty by exact Ha. discriminate.
  - rewrite move_ctor_spec by exact Ha. intros [= <- <-]. split; reflexivity.
Qed.

Lemma size_consistent_copy_assign (b a b' : BinaryTree T) :
  copy_assign b a = Ok b' -> size_consistent b'.
Proof.
  unfold copy_assign. destruct (copy_ctor a) as [c| |] eqn:E; simpl; try discriminate.
  intros [= <-]. apply size_consistent_copy_ctor in E.
  unfold size_consistent in *. simpl. exact E.
Qed.

Lemma size_consistent_move_assign (b a : BinaryTree T) :
  size_consistent a ->
  size_consistent (fst (move_assign b a)) /\ size_consistent (snd (move_assign b a)).
Proof. unfold size_consistent. simpl. intros Ha. split; [exact Ha|reflexivity]. Qed.

(** Every state the public operations produce is size consistent. *)
Lemma reachable_size_consistent b : reachable b -> size_consistent b.
Proof.
  induction 1 as [ |x b b' _ IH Hop|x b b' _ IH Hop|b _ IH|b _ IH
                 |a b _ IH Hop|a b a' _ IH Hop|a b a' _ IH Hop
                 |b a b' _ IHb _ IHa Hop|b a _ IHb _ IHa|b a _ IHb _ IHa].
  - apply size_consistent_default.
  - eapply size_consistent_insert; eauto.
  - eapply size_consistent_remove; eauto.
  - apply size_consistent_clear.
  - apply size_consistent_invertTree. exact IH.
  - eapply size_consistent_copy_ctor; eauto.
  - exact (proj1 (size_consistent_move_ctor _ _ _ Hop)).
  - exact (proj2 (size_consistent_move_ctor _ _ _ Hop)).
  - eapply size_consistent_copy_assign; eauto.
  - apply size_consistent_move_assign. exact IHa.
  - apply size_consistent_move_assign. exact IHa.
Qed.

Lemma size_consistent_empty b :
  size_consistent b ->
  (empty b = true <-> size b = 0%Z) /\ (root b = nullptr <-> size b = 0%Z).
Proof.
  unfold size_consistent, empty, size. intros Hb. split.
  - apply Z.eqb_eq.
  - rewrite Hb. rewrite <- nodes_zero. lia.
Qed.

(** ** Duplicates on a complete tree *)

(** On a complete tree the loop meets every stored element before it meets
    an empty slot. *)
Lemma insert_loop_duplicate t (xs : list T) y j fuel k queue :
  complete_with t xs -> xs !! j = Some y ->
  index <$> queue = seq (k + 1) (k + 1) ->
  (2 * k + 1 < j + 1)%nat -> (length xs <= fuel + k)%nat ->
  insert_loop t y fuel queue = Ok None.
Proof.
  intros Hc Hj. pose proof (lookup_lt_Some _ _ _ Hj) as Hjn. revert k queue.
  induction fuel as [|fuel IH]; intros k queue Hq Hk Hf; [lia|].
  destruct queue as [|p queue]; [rewrite Nat.add_1_r in Hq; discriminate|].
  rewrite fmap_cons, Nat.add_1_r in Hq.
  change (seq (S k) (S k)) with (S k :: seq (S (S k)) k) in Hq.
  injection Hq as Hp Hq.
  assert (Hlive : live t p) by (apply (complete_live t xs p Hc); lia).
  simpl. destruct (deref t p) as [|e l r] eqn:E; [contradiction|].
  pose proof (Hc (child p Left)) as Hel.
  pose proof (Hc (child p Right)) as Her.
  unfold elem_at in Hel, Her.
  rewrite (deref_child_node _ _ _ _ _ Left E), index_child in Hel.
  rewrite (deref_child_node _ _ _ _ _ Right E), index_child in Her.
  destruct l as [|le ll lr].
  { symmetry in Hel. apply lookup_ge_None in Hel. lia. }
  destruct (decide (le = y)) as [|Hle]; [reflexivity|].
  assert (j <> 2 * index p - 1)%nat by (intros ->; congruence).
  destruct r as [|re rl rr].
  { symmetry in Her. apply lookup_ge_None in Her. lia. }
  destruct (decide (re = y)) as [|Hre]; [reflexivity|].
  assert (j <> 2 * index p + 1 - 1)%nat by (intros ->; congruence).
  apply (IH (S k)); [|lia|lia].
  rewrite !fmap_app, Hq, seq_two_more, <- app_assoc.
  simpl. rewrite !index_child, Hp. reflexivity.
Qed.

(** Inserting an element that a complete tree stores changes nothing. *)
Lemma insert_duplicate_complete t (xs : list T) y n :
  complete_with t xs -> nodes t = length xs -> y ∈ xs ->
  insert y (mkTree t n) = Ok (mkTree t n).
Proof.
  intros Hc Hn Hy. apply list_elem_of_lookup in Hy as [j Hj].
  unfold insert. simpl. destruct t as [|e l r] eqn:Et.
  - apply complete_nullptr in Hc. subst xs. discriminate.
  - rewrite <- Et in *. destruct (decide (e = y)); [reflexivity|].
    rewrite (insert_loop_duplicate t xs y j (nodes t) 0 [[]] Hc Hj);
      [reflexivity|reflexivity| |lia].
    destruct j as [|j]; [|lia]. exfalso.
    specialize (Hc []). unfold elem_at in Hc. rewrite Et in Hc. simpl in Hc.
    congruence.
Qed.

(** ** Level order, level by level *)

Lemma live_length t p : live t p -> (length p < nodes t)%nat.
Proof.
  unfold live. revert t. induction p as [|d p IH]; intros t Hp.
  - apply nodes_pos. exact Hp.
  - destruct t as [|e l r].
    + destruct d; simpl in Hp; rewrite deref_nullptr in Hp; congruence.
    + apply IH in Hp. destruct d; simpl in *; lia.
Qed.

Lemma list_bind_assoc {A B C : Type} (f : A -> list B) (g : B -> list C)
    (L : list A) :
  (L ≫= f) ≫= g = L ≫= (fun a => f a ≫= g).
Proof.
  induction L as [|a L IH]; [reflexivity|].
  rewrite !bind_cons, bind_app, IH. reflexivity.
Qed.

Lemma level_descend t d : level t d = descend t d (level t 0).
Proof. induction d as [|d IH]; [reflexivity|]. simpl. rewrite IH. reflexivity. Qed.

Lemma descend_length t n (L : list addr) p :
  p ∈ descend t n L -> (n <= length p)%nat.
Proof.
  revert p. induction n as [|n IH]; intros p Hp; [lia|].
  simpl in Hp. apply list_elem_of_bind in Hp as (p' & Hc & Hp').
  apply children_spec in Hc as (d & -> & _). apply IH in Hp'.
  unfold child. rewrite length_app. simpl. lia.
Qed.

Lemma descend_live t n (L : list addr) p : p ∈ descend t (S n) L -> live t p.
Proof.
  simpl. intros Hp. apply list_elem_of_bind in Hp as (p' & Hc & _).
  eapply children_live. exact Hc.
Qed.

Lemma descend_deep t n (L : list addr) :
  (nodes t <= S n)%nat -> descend t (S n) L = [].
Proof.
  intros Hn. destruct (descend t (S n) L) as [|p D] eqn:E; [reflexivity|exfalso].
  assert (Hp : p ∈ descend t (S n) L) by (rewrite E; left).
  pose proof (descend_length _ _ _ _ Hp).
  pose proof (live_length _ _ (descend_live _ _ _ _ Hp)). lia.
Qed.

Lemma levels_step t k :
  level t 0 ++ ((seq 0 (S k) ≫= level t) ≫= children t) =
  seq 0 (S (S k)) ≫= level t.
Proof.
  rewrite list_bind_assoc.
  change (seq 0 (S (S k))) with (0%nat :: seq 1 (S k)).
  rewrite bind_cons. f_equal.
  rewrite <- fmap_S_seq, list_fmap_bind. reflexivity.
Qed.

(** The enumeration starts with the levels [0 .. k], in this order. *)
Lemma level_order_levels_prefix t k :
  t <> nullptr ->
  level_order t = (seq 0 (S k) ≫= level t) ++ descend t (S k) (level_order t).
Proof.
  intros Ht. assert (H0 : level t 0 = [[]]).
  { simpl. rewrite (proj2 (is_null_false _) Ht). reflexivity. }
  induction k as [|k IH].
  - change (seq 0 1) with [0%nat]. rewrite bind_singleton, H0.
    apply level_order_unfold. exact Ht.
  - rewrite <- levels_step.
    change (descend t (S (S k)) (level_order t))
      with (descend t (S k) (level_order t) ≫= children t).
    rewrite <- app_assoc, <- bind_app, <- IH, H0.
    apply level_order_unfold. exact Ht.
Qed.

(** Level order lists the nodes level by level, every level from left to
    right. *)
Lemma level_order_levels t : level_order t = seq 0 (nodes t) ≫= level t.
Proof.
  destruct t as [|e l r] eqn:Et; [reflexivity|]. rewrite <- Et.
  assert (Ht : t <> nullptr) by (rewrite Et; discriminate).
  replace (nodes t) with (S (nodes l + nodes r)) by (rewrite Et; reflexivity).
  rewrite (level_order_levels_prefix t (nodes l + nodes r) Ht) at 1.
  rewrite descend_deep, app_nil_r; [reflexivity|]. rewrite Et. simpl. lia.
Qed.

Lemma level_length t d p : p ∈ level t d -> length p = d.
Proof.
  revert p. induction d as [|d IH]; intros p Hp; simpl in Hp.
  - destruct (is_null t); [apply elem_of_nil in Hp; contradiction|].
    apply list_elem_of_singleton in Hp. subst p. reflexivity.
  - apply list_elem_of_bind in Hp as (p' & Hc & Hp').
    apply children_spec in Hc as (d' & -> & _). apply IH in Hp'.
    unfold child. rewrite length_app. simpl. lia.
Qed.

(** The enumeration has as many entries as the tree has nodes. *)
Lemma bfs_length t fuel queue :
  Forall (live t) queue -> (weight t queue <= fuel)%nat ->
  length (bfs t fuel queue) = weight t queue.
Proof.
  revert queue. induction fuel as [|fuel IH]; intros queue Hlive Hw;
    (destruct queue as [|p queue]; [reflexivity|]);
    dequeue Hlive p queue Hp Hq Hd; [lia|].
  cbn [bfs length]. rewrite IH; [exact Hd|assumption|lia].
Qed.

Lemma level_order_length t : length (level_order t) = nodes t.
Proof.
  unfold level_order. destruct (is_null t) eqn:E.
  - apply is_null_true in E. subst t. reflexivity.
  - rewrite bfs_length.
    + apply weight_root.
    + repeat constructor. apply is_null_false. exact E.
    + rewrite weight_root. lia.
Qed.

(** ** Level order of a complete tree *)

Lemma complete_children t (xs : list T) p :
  complete_with t xs ->
  index <$> children t p =
    (if decide (2 * index p <= length xs)%nat then [2 * index p]%nat else []) ++
    (if decide (2 * index p + 1 <= length xs)%nat then [2 * index p + 1]%nat else []).
Proof.
  intros Hc. unfold children. rewrite fmap_app. f_equal.
  - pose proof (complete_live t xs (child p Left) Hc) as Hl.
    rewrite index_child in Hl. unfold live in Hl.
    destruct (is_null _) eqn:E; case_decide as Hi; simpl;
      rewrite ?index_child; try reflexivity; exfalso.
    + apply is_null_true in E. apply Hl in Hi. contradiction.
    + apply is_null_false in E. apply Hl in E. contradiction.
  - pose proof (complete_live t xs (child p Right) Hc) as Hr.
    rewrite index_child in Hr. unfold live in Hr.
    destruct (is_null _) eqn:E; case_decide as Hi; simpl;
      rewrite ?index_child; try reflexivity; exfalso.
    + apply is_null_true in E. apply Hr in Hi. contradiction.
    + apply is_null_false in E. apply Hr in E. contradiction.
Qed.

(** The enumeration of a complete tree goes through the positions in
    increasing order. *)
Lemma bfs_complete t (xs : list T) fuel k m queue :
  complete_with t xs ->
  index <$> queue = seq (k + 1) m ->
  (k + m = (2 * k + 1) `min` length xs)%nat -> (length xs <= fuel + k)%nat ->
  index <$> bfs t fuel queue = seq (k + 1) (length xs - k).
Proof.
  intros Hc. revert k m queue.
  induction fuel as [|fuel IH]; intros k m queue Hq Hm Hf.
  - replace (length xs - k)%nat with 0%nat by lia. reflexivity.
  - destruct queue as [|p queue].
    + destruct m; [|discriminate].
      replace (length xs - k)%nat with 0%nat by lia. reflexivity.
    + destruct m as [|m]; [rewrite Nat.add_1_r in Hq; discriminate|].
      rewrite Nat.add_1_r in Hq |- *. rewrite fmap_cons in Hq.
      change (seq (S k) (S m)) with (S k :: seq (S (S k)) m) in Hq.
      injection Hq as Hp Hq.
      change (bfs t (S fuel) (p :: queue))
        with (p :: bfs t fuel (queue ++ children t p)).
      rewrite fmap_cons, Hp.
      replace (length xs - k)%nat with (S (length xs - S k)) by lia.
      change (seq (S k) (S (length xs - S k)))
        with (S k :: seq (S (S k)) (length xs - S k)).
      f_equal. rewrite <- (Nat.add_1_r (S k)).
      apply (IH (S k)
        (m + (if decide (2 * S k <= length xs)%nat then 1 else 0)
           + (if decide (2 * S k + 1 <= length xs)%nat then 1 else 0))%nat);
        [|repeat case_decide; lia|lia].
      rewrite Nat.add_1_r, fmap_app, Hq, (complete_children t xs p Hc), Hp.
      repeat case_decide;
        rewrite ?Nat.add_0_r, ?seq_app, <- ?app_assoc; simpl;
        rewrite ?app_nil_r; repeat f_equal; lia.
Qed.

Lemma level_order_complete_index t (xs : list T) :
  complete_with t xs -> nodes t = length xs ->
  index <$> level_order t = seq 1 (length xs).
Proof.
  intros Hc Hn. unfold level_order. destruct (is_null t) eqn:E.
  - apply is_null_true in E. subst t. rewrite <- Hn. reflexivity.
  - apply is_null_false in E.
    assert (1 <= length xs)%nat by (rewrite <- Hn; apply nodes_pos; exact E).
    rewrite (bfs_complete t xs (nodes t) 0 1 [[]] Hc); [|reflexivity|lia|lia].
    f_equal. lia.
Qed.

(** In level order, a complete tree holding [xs] reads [xs]. *)
Lemma level_order_complete_elems t (xs : list T) :
  complete_with t xs -> nodes t = length xs ->
  elem_at t <$> level_order t = Some <$> xs.
Proof.
  intros Hc Hn. pose proof (level_order_complete_index t xs Hc Hn) as Hi.
  apply list_eq. intros i. rewrite !list_lookup_fmap.
  apply (f_equal (fun L => L !! i)) in Hi. rewrite list_lookup_fmap in Hi.
  destruct (level_order t !! i) as [p|] eqn:Ep; simpl in *.
  - symmetry in Hi. apply lookup_seq in Hi as [Hi Hlt].
    rewrite Hc, Hi. simpl. rewrite Nat.sub_0_r.
    destruct (xs !! i) eqn:Ex; [reflexivity|].
    apply lookup_ge_None in Ex. lia.
  - symmetry in Hi. apply lookup_ge_None in Hi. rewrite length_seq in Hi.
    rewrite (lookup_ge_None_2 xs i) by lia. reflexivity.
Qed.

(** ** What [remove] cuts off *)

(** In a tree of several nodes, the node [remove] cuts off is the last one
    in level order, and it is a leaf. *)
Lemma excised_last_leaf t :
  (1 < nodes t)%nat ->
  exists dp,
    last (filter (has_child t) (level_order t)) = Some dp /\
    last (level_order t) = Some (excised t dp) /\
    exists e, deref t (excised t dp) = Node e nullptr nullptr.
Proof.
  intros Hn.
  assert (Ht : t <> nullptr) by (intros ->; simpl in Hn; lia).
  destruct (last_filter_is_Some (has_child t) (level_order t) [])
    as (dp & Hdp & _ & _);
    [apply level_order_complete; exact Ht|apply has_child_root; exact Hn|].
  pose proof (level_order_last t Ht) as Hlast. rewrite Hdp in Hlast.
  exists dp. split_and!; [exact Hdp|exact Hlast|].
  apply leaf_of_no_children.
  - pose proof (level_order_live t) as Hl. rewrite list.Forall_forall in Hl.
    apply Hl. eapply last_Some_elem_of. exact Hlast.
  - apply level_order_last_leaf. exact Hlast.
Qed.

Lemma last_filter_holds t x pd :
  last (filter (holds t x) (level_order t)) = Some pd -> elem_at t pd = Some x.
Proof.
  intros Hpd. apply last_Some_elem_of, list_elem_of_filter in Hpd as [Hh _].
  exact Hh.
Qed.

(** Copying a tree that has a root and clearing the source afterwards leaves
    the copy equal to the source as it was. *)
Lemma copy_ctor_round_trip (a : BinaryTree T) :
  root a <> nullptr -> size_consistent a ->
  (do b <- copy_ctor a; Ok (clear a, b)) = Ok (empty_tree, a).
Proof.
  intros Ha Hs. rewrite copy_ctor_spec by exact Ha. simpl.
  destruct a as [t n]. unfold size_consistent in Hs. simpl in *. rewrite Hs.
  reflexivity.
Qed.

(** Moving a tree that has a root leaves the source empty and gives the new
    object what the source held. *)
Lemma move_ctor_round_trip (a : BinaryTree T) :
  root a <> nullptr -> size_consistent a ->
  exists a', move_ctor a = Ok (a, a') /\ empty a' = true /\ root a' = nullptr.
Proof.
  intros Ha Hs. rewrite move_ctor_spec by exact Ha.
  destruct a as [t n]. unfold size_consistent in Hs. simpl in *. rewrite Hs.
  eexists. split_and!; reflexivity.
Qed.

End Facts.

(** * The properties of the specification *)

(** C1. In a tree of more than one node that stores [x], [remove x] writes
    the element of the last node in level order into the node holding [x]
    (the last such node in level order, should there be several), cuts that
    last node, a leaf, off, and lowers the size by one.  From the tree of
    1, 2, 3, 4, 5, [remove 2] gives root 1, 1.left 5, 1.right 3, 5.left 4 and
    size 4; [remove 1] on the tree holding only 1 leaves the empty tree. *)
Theorem remove_replaces_by_last :
  (forall (T : Type) (EqT : EqDecision T) (x : T) (b : BinaryTree T),
      stored x (root b) -> (1 < nodes (root b))%nat ->
      exists pd v e,
        last (filter (holds (root b) x) (level_order (root b))) = Some pd /\
        elem_at (root b) pd = Some x /\
        last (level_order (root b)) = Some v /\
        deref (root b) v = Node e nullptr nullptr /\
        remove x b =
          Ok (mkTree (store (set_element (root b) pd e) v nullptr)
                (treeSize b - 1))) /\
  (exists b b',
      inserts [1; 2; 3; 4; 5]%Z empty_tree = Ok b /\ root b = tree_12345 /\
      remove 2%Z b = Ok b' /\ root b' = tree_1534 /\ size b' = 4%Z) /\
  (exists b b',
      inserts [1%Z] empty_tree = Ok b /\ root b = leaf 1 /\
      remove 1%Z b = Ok b' /\
      root b' = nullptr /\ size b' = 0%Z /\ empty b' = true).
Proof.
  split_and!.
  - intros T EqT x b Hx Hn.
    destruct (remove_present x b Hx Hn) as (pd & v & e & Hpd & Hv & He & Hr).
    exists pd, v, e. split_and!; try assumption.
    eapply last_filter_holds. exact Hpd.
  - eexists _, _. split_and!; reflexivity.
  - eexists _, _. split_and!; reflexivity.
Qed.

Lemma remove_replaces_by_last_witness :
  stored 2%Z tree_12345 /\ (1 < nodes tree_12345)%nat /\
  exists pd v e,
    last (filter (holds tree_12345 2%Z) (level_order tree_12345)) = Some pd /\
    elem_at tree_12345 pd = Some 2%Z /\
    last (level_order tree_12345) = Some v /\
    deref tree_12345 v = Node e nullptr nullptr /\
    remove 2%Z (mkTree tree_12345 5) =
      Ok (mkTree (store (set_element tree_12345 pd e) v nullptr) (5 - 1)).
Proof.
  assert (Hs : stored 2%Z tree_12345) by (simpl; auto).
  assert (Hn : (1 < nodes tree_12345)%nat) by (simpl; lia).
  split_and!; [exact Hs|exact Hn|].
  exact (proj1 remove_replaces_by_last Z _ 2%Z (mkTree tree_12345 5) Hs Hn).
Defined.

(** C2. Starting from the empty tree, inserting pairwise distinct elements
    [xs] gives the complete binary tree of [length xs] nodes holding [xs] in
    level order: the node at position [i] of the array layout (root 1,
    children of [i] at [2 i] and [2 i + 1]) holds the [i]-th element, no
    node lies beyond position [length xs], and the level order enumeration
    of the tree reads [xs]. *)
Theorem inserts_complete :
  forall (T : Type) (EqT : EqDecision T) (xs : list T),
    NoDup xs ->
    exists t,
      inserts xs empty_tree = Ok (mkTree t (Z.of_nat (length xs))) /\
      nodes t = length xs /\
      complete_with t xs /\
      elem_at t <$> level_order t = Some <$> xs.
Proof.
  intros T EqT xs. induction xs as [|y xs IH] using rev_ind; intros Hnd.
  - exists nullptr. split_and!; try reflexivity. apply complete_with_nil.
  - apply NoDup_app in Hnd as (Hnd & Hy & _).
    destruct (IH Hnd) as (t & Hi & Hn & Hc & _).
    assert (Hyx : y ∉ xs) by (intros Hin; apply (Hy y Hin); left).
    destruct (insert_complete t xs y (Z.of_nat (length xs)) Hc Hn Hyx)
      as (t' & Hi' & Hc' & Hn').
    exists t'. rewrite inserts_snoc, Hi. simpl. rewrite Hi'.
    assert (Hlen : length (xs ++ [y]) = S (length xs))
      by (rewrite length_app; simpl; lia).
    split_and!.
    + rewrite Hlen. do 2 f_equal. lia.
    + rewrite Hlen. exact Hn'.
    + exact Hc'.
    + apply level_order_complete_elems; [exact Hc'|]. rewrite Hlen. exact Hn'.
Qed.

Lemma inserts_complete_witness :
  NoDup [1; 2; 3]%Z /\
  exists t,
    inserts [1; 2; 3]%Z empty_tree = Ok (mkTree t (Z.of_nat 3)) /\
    nodes t = 3%nat /\
    complete_with t [1; 2; 3]%Z /\
    elem_at t <$> level_order t = Some <$> [1; 2; 3]%Z.
Proof.
  assert (Hnd : NoDup [1; 2; 3]%Z) by (exact (bool_decide_unpack (NoDup [1; 2; 3]%Z) I)).
  split; [exact Hnd|]. exact (inserts_complete Z _ [1; 2; 3]%Z Hnd).
Defined.

(** C3. Inserting an element that the tree already stores is meant to change
    nothing.  After [insert 1], [insert 2], [invertTree] the tree is root 1
    with the right child 2; [insert 2] then meets the empty left slot of the
    root before it meets the node holding 2, and stores 2 a second time. *)
Theorem insert_duplicate_after_invertTree :
  exists b b',
    reachable b /\ root b = tree_1_2 /\ size b = 2%Z /\ stored 2%Z (root b) /\
    insert 2%Z b = Ok b' /\
    root b' = Node 1%Z (leaf 2) (leaf 2) /\ size b' = 3%Z.
Proof.
  exists (mkTree tree_1_2 2), (mkTree (Node 1%Z (leaf 2) (leaf 2)) 3).
  split_and!; try reflexivity.
  - apply (reach_invertTree (mkTree (Node 1%Z (leaf 2) nullptr) 2)).
    apply (reach_insert 2%Z (mkTree (leaf 1) 1)); [|reflexivity].
    apply (reach_insert 1%Z empty_tree); [|reflexivity].
    apply reach_default.
  - simpl. auto.
Qed.

(** C4. In every state the public operations can produce, [size()] is the
    number of nodes reachable from the root, [empty()] holds exactly when
    [size()] is 0, and the root is null exactly when [size()] is 0. *)
Theorem size_consistency :
  forall (T : Type) (EqT : EqDecision T) (b : BinaryTree T),
    reachable b ->
    size b = Z.of_nat (nodes (root b)) /\
    (empty b = true <-> size b = 0%Z) /\
    (root b = nullptr <-> size b = 0%Z).
Proof.
  intros T EqT b Hb. apply reachable_size_consistent in Hb.
  split; [exact Hb|]. apply size_consistent_empty. exact Hb.
Qed.

Lemma size_consistency_witness :
  reachable (mkTree tree_1534 4) /\
  size (mkTree tree_1534 4) = Z.of_nat (nodes tree_1534) /\
  (empty (mkTree tree_1534 4) = true <-> size (mkTree tree_1534 4) = 0%Z) /\
  (tree_1534 = nullptr <-> size (mkTree tree_1534 4) = 0%Z).
Proof.
  assert (Hr : reachable (mkTree tree_1534 4)).
  { apply (reach_remove 2%Z (mkTree tree_12345 5)); [|reflexivity].
    apply (reach_insert 5%Z (mkTree (Node 1%Z (Node 2%Z (leaf 4) nullptr) (leaf 3)) 4));
      [|reflexivity].
    apply (reach_insert 4%Z (mkTree (Node 1%Z (leaf 2) (leaf 3)) 3)); [|reflexivity].
    apply (reach_insert 3%Z (mkTree (Node 1%Z (leaf 2) nullptr) 2)); [|reflexivity].
    apply (reach_insert 2%Z (mkTree (leaf 1) 1)); [|reflexivity].
    apply (reach_insert 1%Z empty_tree); [|reflexivity].
    apply reach_default. }
  split; [exact Hr|]. exact (size_consistency Z _ (mkTree tree_1534 4) Hr).
Defined.

(** C5. A copy is meant to be an independent clone of any tree.  Given the
    empty tree, the copy constructor puts the null root into its queue and
    dereferences it. *)
Theorem copy_ctor_of_empty_tree :
  forall (T : Type) (EqT : EqDecision T),
    reachable (@empty_tree T) /\ copy_ctor (@empty_tree T) = Fault.
Proof. intros T EqT. split; [apply reach_default|reflexivity]. Qed.

(** C6. A move is meant to hand over any tree and leave the source empty.
    Given the empty tree, the move constructor puts the null root into its
    queue and dereferences it. *)
Theorem move_ctor_of_empty_tree :
  forall (T : Type) (EqT : EqDecision T),
    reachable (@empty_tree T) /\ move_ctor (@empty_tree T) = Fault.
Proof. intros T EqT. split; [apply reach_default|reflexivity]. Qed.

(** C7. Inserting 1, 2, 3, 4, 5 into the empty tree gives root 1, 1.left 2,
    1.right 3, 2.left 4, 2.right 5; on that tree [depth 5] is 2, [height 1]
    is 2, [bfsearch 4] is true and [dfsearch 6] is false. *)
Theorem insert_scenario :
  exists b,
    inserts [1; 2; 3; 4; 5]%Z empty_tree = Ok b /\
    root b = Node 1%Z (Node 2%Z (Node 4%Z nullptr nullptr) (Node 5%Z nullptr nullptr))
               (Node 3%Z nullptr nullptr) /\
    depth 5%Z b = 2%Z /\
    height 1%Z b = 2%Z /\
    bfsearch 4%Z b = Ok true /\
    dfsearch 6%Z b = Ok false.
Proof. eexists. split_and!; reflexivity. Qed.

(** C8. For an element [x] that the tree does not store, [bfsearch] and
    [dfsearch] return false, [remove] leaves the object as it is, and
    [depth] and [height] return -1; on the empty tree [depth] and [height]
    return -1 for every element. *)
Theorem absence_is_not_an_error :
  forall (T : Type) (EqT : EqDecision T) (x : T) (b : BinaryTree T),
    ~ stored x (root b) ->
    bfsearch x b = Ok false /\
    dfsearch x b = Ok false /\
    remove x b = Ok b /\
    depth x b = (-1)%Z /\
    height x b = (-1)%Z /\
    depth x empty_tree = (-1)%Z /\
    height x empty_tree = (-1)%Z.
Proof.
  intros T EqT x b Hx. split_and!; try reflexivity.
  - rewrite bfsearch_spec, bool_decide_eq_false_2 by exact Hx. reflexivity.
  - rewrite dfsearch_spec, bool_decide_eq_false_2 by exact Hx. reflexivity.
  - apply remove_absent. exact Hx.
  - apply depth_absent. exact Hx.
  - apply height_absent. exact Hx.
Qed.

Lemma absence_is_not_an_error_witness :
  ~ stored 6%Z tree_12345 /\
  bfsearch 6%Z (mkTree tree_12345 5) = Ok false /\
  dfsearch 6%Z (mkTree tree_12345 5) = Ok false /\
  remove 6%Z (mkTree tree_12345 5) = Ok (mkTree tree_12345 5) /\
  depth 6%Z (mkTree tree_12345 5) = (-1)%Z /\
  height 6%Z (mkTree tree_12345 5) = (-1)%Z /\
  depth 6%Z empty_tree = (-1)%Z /\
  height 6%Z empty_tree = (-1)%Z.
Proof.
  assert (Hx : ~ stored 6%Z tree_12345) by (simpl; lia).
  split; [exact Hx|].
  exact (absence_is_not_an_error Z _ 6%Z (mkTree tree_12345 5) Hx).
Defined.

(** C9. [bfsearch] and [dfsearch] return the same answer, which is true
    exactly when the element is stored at some node; on the empty tree both
    return false. *)
Theorem search_agreement :
  forall (T : Type) (EqT : EqDecision T) (x : T) (b : BinaryTree T),
    bfsearch x b = dfsearch x b /\
    (bfsearch x b = Ok true \/ bfsearch x b = Ok false) /\
    (bfsearch x b = Ok true <-> stored x (root b)) /\
    (dfsearch x b = Ok true <-> stored x (root b)) /\
    bfsearch x empty_tree = Ok false /\
    dfsearch x empty_tree = Ok false.
Proof.
  intros T EqT x b. rewrite bfsearch_spec, dfsearch_spec.
  split_and!; try reflexivity.
  - destruct (bool_decide (stored x (root b))); auto.
  - split; [intros [= Hb]; apply bool_decide_eq_true in Hb; exact Hb|].
    intros Hx. rewrite bool_decide_eq_true_2 by exact Hx. reflexivity.
  - split; [intros [= Hb]; apply bool_decide_eq_true in Hb; exact Hb|].
    intros Hx. rewrite bool_decide_eq_true_2 by exact Hx. reflexivity.
Qed.

(** C10. In every tree of more than one node, of whatever shape, the node
    [remove] cuts off (the right child, or else the left child, of the last
    node in level order that has a child) is the last node in level order
    and is a leaf; a [remove] of a stored element takes exactly that node
    out of the tree. *)
Theorem remove_excises_last_leaf :
  forall (T : Type) (EqT : EqDecision T) (t : tree T),
    (1 < nodes t)%nat ->
    exists deepestParent,
      (forall x, exists deleteNode,
          remove_loop t x (S (nodes t)) [[]] None None =
            Ok (Some deepestParent, deleteNode)) /\
      last (filter (has_child t) (level_order t)) = Some deepestParent /\
      last (level_order t) = Some (excised t deepestParent) /\
      (exists e, deref t (excised t deepestParent) = Node e nullptr nullptr) /\
      (forall x n, stored x t ->
         exists pd e,
           remove x (mkTree t n) =
             Ok (mkTree (store (set_element t pd e) (excised t deepestParent) nullptr)
                   (n - 1)) /\
           S (nodes (store (set_element t pd e) (excised t deepestParent) nullptr)) =
             nodes t).
Proof.
  intros T EqT t Hn.
  assert (Ht : t <> nullptr) by (intros ->; simpl in Hn; lia).
  destruct (excised_last_leaf t Hn) as (dp & Hdp & Hlast & e & He).
  exists dp. split_and!; [|exact Hdp|exact Hlast|eauto|].
  - intros x. rewrite remove_scan by exact Ht. rewrite Hdp. eauto.
  - intros x n Hx.
    destruct (remove_present x (mkTree t n) Hx Hn)
      as (pd & v & e' & _ & Hv & He' & Hr).
    simpl in *. rewrite Hlast in Hv. injection Hv as <-.
    exists pd, e'. split; [exact Hr|]. apply nodes_remove_result. exact He'.
Qed.

Lemma remove_excises_last_leaf_witness :
  (1 < nodes tree_1_2)%nat /\
  exists deepestParent,
    (forall x, exists deleteNode,
        remove_loop tree_1_2 x (S (nodes tree_1_2)) [[]] None None =
          Ok (Some deepestParent, deleteNode)) /\
    last (filter (has_child tree_1_2) (level_order tree_1_2)) = Some deepestParent /\
    last (level_order tree_1_2) = Some (excised tree_1_2 deepestParent) /\
    (exists e, deref tree_1_2 (excised tree_1_2 deepestParent) = Node e nullptr nullptr) /\
    (forall x n, stored x tree_1_2 ->
       exists pd e,
         remove x (mkTree tree_1_2 n) =
           Ok (mkTree (store (set_element tree_1_2 pd e)
                         (excised tree_1_2 deepestParent) nullptr)
                 (n - 1)) /\
         S (nodes (store (set_element tree_1_2 pd e)
                     (excised tree_1_2 deepestParent) nullptr)) =
           nodes tree_1_2).
Proof.
  assert (Hn : (1 < nodes tree_1_2)%nat) by (simpl; lia).
  split; [exact Hn|]. exact (remove_excises_last_leaf Z _ tree_1_2 Hn).
Defined.

(** * Further facts *)

Section MoreFacts.
Context {T : Type} `{EqDecision T}.
Implicit Types (t l r : tree T) (p q s : addr) (x y e : T) (b : BinaryTree T).

(** ** [invertTree] *)

Lemma flip_involutive d : flip (flip d) = d.
Proof. destruct d; reflexivity. Qed.

Lemma mirror_involutive p : mirror (mirror p) = p.
Proof.
  unfold mirror. induction p as [|d p IH]; [reflexivity|].
  rewrite !fmap_cons, flip_involutive, IH. reflexivity.
Qed.

Lemma invert_involutive t : invert (invert t) = t.
Proof. induction t as [|e l IHl r IHr]; simpl; congruence. Qed.

Lemma slot_invert d t : slot d (invert t) = invert (slot (flip d) t).
Proof. destruct t, d; reflexivity. Qed.

Lemma deref_invert t p : deref (invert t) p = invert (deref t (mirror p)).
Proof.
  revert t. induction p as [|d p IH]; intros t; [reflexivity|].
  simpl. rewrite slot_invert. apply IH.
Qed.

Lemma elem_at_invert t p : elem_at (invert t) p = elem_at t (mirror p).
Proof.
  unfold elem_at. rewrite deref_invert. destruct (deref t (mirror p)); reflexivity.
Qed.

Lemma stored_invert x t : stored x (invert t) <-> stored x t.
Proof. induction t as [|e l IHl r IHr]; simpl; tauto. Qed.

Lemma getDepth_invert t x d : getDepth (invert t) x d = getDepth t x d.
Proof.
  revert d. induction t as [|e l IHl r IHr]; intros d; simpl; [reflexivity|].
  destruct (decide (e = x)); [reflexivity|]. rewrite IHl, IHr.
  destruct (Z.ltb_spec (getDepth r x (d + 1)) (getDepth l x (d + 1)));
    destruct (Z.ltb_spec (getDepth l x (d + 1)) (getDepth r x (d + 1))); lia.
Qed.

Lemma getHeight_invert t x h found :
  getHeight (invert t) x h found = getHeight t x h found.
Proof.
  revert h found. induction t as [|e l IHl r IHr]; intros h found; simpl;
    [reflexivity|]. rewrite IHl, IHr.
  match goal with
  | |- (if ?a <? ?c then _ else _)%Z = (if _ <? _ then _ else _)%Z =>
      destruct (Z.ltb_spec a c); destruct (Z.ltb_spec c a); lia
  end.
Qed.

Lemma depth_getDepth x b : depth x b = getDepth (root b) x 0.
Proof. unfold depth. destruct (root b); reflexivity. Qed.

Lemma height_getHeight x b : height x b = getHeight (root b) x 0 false.
Proof. unfold height. destruct (root b); reflexivity. Qed.

(** ** [depth] and [height] of a stored element *)

Lemma first_hit_root e l r : first_hit (Node e l r) e [].
Proof.
  split; [reflexivity|]. intros q Hq _. apply prefix_nil_inv in Hq. exact Hq.
Qed.

Lemma first_hit_root_inv e l r q : first_hit (Node e l r) e q -> q = [].
Proof.
  intros [_ Hq]. symmetry. apply Hq; [apply prefix_nil|reflexivity].
Qed.

Lemma first_hit_nullptr x q : ~ first_hit (@nullptr T) x q.
Proof.
  intros [Hq _]. unfold holds in Hq. rewrite elem_at_nullptr in Hq. discriminate.
Qed.

Lemma first_hit_step e l r x d q :
  e <> x ->
  first_hit (Node e l r) x (d :: q) <-> first_hit (slot d (Node e l r)) x q.
Proof.
  intros He. unfold first_hit, holds, elem_at. split.
  - intros [Hq Hpre]. split; [exact Hq|]. intros q' Hq' Hh.
    assert (Heq : d :: q' = d :: q) by (apply Hpre; [apply prefix_cons|]; assumption).
    congruence.
  - intros [Hq Hpre]. split; [exact Hq|]. intros [|d' q'] Hq' Hh.
    + simpl in Hh. congruence.
    + pose proof (prefix_cons_inv_1 _ _ _ _ Hq') as ->.
      apply prefix_cons_inv_2 in Hq'. f_equal. apply Hpre; assumption.
Qed.

Lemma first_hit_stored t x q : first_hit t x q -> stored x t.
Proof. intros [Hq _]. apply stored_holds. eauto. Qed.

Lemma first_hit_not_root e l r x q : e <> x -> first_hit (Node e l r) x q -> q <> [].
Proof.
  intros He [Hq _] ->. unfold holds, elem_at in Hq. simpl in Hq. congruence.
Qed.

Lemma first_hit_children e l r x :
  e <> x ->
  forall q, first_hit (Node e l r) x q ->
    (exists q', q = Left :: q' /\ first_hit l x q') \/
    (exists q', q = Right :: q' /\ first_hit r x q').
Proof.
  intros He [|[] q'] Hq.
  - exfalso. eapply first_hit_not_root; eauto.
  - left. exists q'. split; [reflexivity|].
    apply (first_hit_step e l r x Left q' He). exact Hq.
  - right. exists q'. split; [reflexivity|].
    apply (first_hit_step e l r x Right q' He). exact Hq.
Qed.

(** [getDepth] returns the level of the deepest node at which [x] is first
    met on the way down from the root. *)
Lemma getDepth_spec t x (d : Z) :
  (0 <= d)%Z ->
  (~ stored x t /\ getDepth t x d = (-1)%Z) \/
  exists p, first_hit t x p /\ getDepth t x d = (d + Z.of_nat (length p))%Z /\
    forall q, first_hit t x q -> (length q <= length p)%nat.
Proof.
  revert d. induction t as [|e l IHl r IHr]; intros d Hd; simpl.
  - left. split; [tauto|reflexivity].
  - destruct (decide (e = x)) as [->|He].
    + right. exists []. split_and!; [apply first_hit_root|simpl; lia|].
      intros q Hq. apply first_hit_root_inv in Hq. subst q. reflexivity.
    + assert (Hd' : (0 <= d + 1)%Z) by lia.
      pose proof (first_hit_children e l r x He) as Hsplit.
      destruct (IHl (d + 1)%Z Hd') as [[Hnl Hl]|(pl & Hpl & Hl & Hml)];
        destruct (IHr (d + 1)%Z Hd') as [[Hnr Hr]|(pr & Hpr & Hr & Hmr)];
        rewrite Hl, Hr.
      * left. split; [tauto|reflexivity].
      * right. exists (Right :: pr). split_and!.
        -- apply (first_hit_step e l r x Right pr He). exact Hpr.
        -- destruct (Z.ltb_spec (-1) (d + 1 + Z.of_nat (length pr))); simpl length; lia.
        -- intros q Hq. destruct (Hsplit q Hq) as [(q' & -> & Hq')|(q' & -> & Hq')].
           ++ exfalso. apply Hnl. eapply first_hit_stored. exact Hq'.
           ++ simpl. apply Hmr in Hq'. lia.
      * right. exists (Left :: pl). split_and!.
        -- apply (first_hit_step e l r x Left pl He). exact Hpl.
        -- destruct (Z.ltb_spec (d + 1 + Z.of_nat (length pl)) (-1)); simpl length; lia.
        -- intros q Hq. destruct (Hsplit q Hq) as [(q' & -> & Hq')|(q' & -> & Hq')].
           ++ simpl. apply Hml in Hq'. lia.
           ++ exfalso. apply Hnr. eapply first_hit_stored. exact Hq'.
      * destruct (Z.ltb_spec (d + 1 + Z.of_nat (length pl))
                    (d + 1 + Z.of_nat (length pr))) as [Hlt|Hge]; right.
        -- exists (Right :: pr). split_and!.
           ++ apply (first_hit_step e l r x Right pr He). exact Hpr.
           ++ simpl length. lia.
           ++ intros q Hq.
              destruct (Hsplit q Hq) as [(q' & -> & Hq')|(q' & -> & Hq')]; simpl.
              ** apply Hml in Hq'. lia.
              ** apply Hmr in Hq'. lia.
        -- exists (Left :: pl). split_and!.
           ++ apply (first_hit_step e l r x Left pl He). exact Hpl.
           ++ simpl length. lia.
           ++ intros q Hq.
              destruct (Hsplit q Hq) as [(q' & -> & Hq')|(q' & -> & Hq')]; simpl.
              ** apply Hml in Hq'. lia.
              ** apply Hmr in Hq'. lia.
Qed.

Lemma getHeight_found t x (h : Z) :
  getHeight t x h true = (h + Z.of_nat (levels t))%Z.
Proof.
  revert h. induction t as [|e l IHl r IHr]; intros h; simpl; [lia|].
  rewrite IHl, IHr.
  destruct (Z.ltb_spec (h + 1 + Z.of_nat (levels l)) (h + 1 + Z.of_nat (levels r)));
    lia.
Qed.

(** [getHeight] returns the number of edges below the node at which [x] is
    first met on the way down from the root, the largest such number when
    [x] is met on several ways. *)
Lemma getHeight_spec t x :
  (~ stored x t /\ getHeight t x 0 false = (-1)%Z) \/
  exists p, first_hit t x p /\
    getHeight t x 0 false = (Z.of_nat (levels (deref t p)) - 1)%Z /\
    forall q, first_hit t x q ->
      (levels (deref t q) <= levels (deref t p))%nat.
Proof.
  induction t as [|e l IHl r IHr]; simpl.
  - left. split; [tauto|reflexivity].
  - destruct (decide (e = x)) as [->|He].
    + right. exists []. rewrite bool_decide_eq_true_2 by reflexivity.
      rewrite !getHeight_found. split_and!; [apply first_hit_root| |].
      * simpl. destruct (Z.ltb_spec (0 + Z.of_nat (levels l)) (0 + Z.of_nat (levels r)));
          lia.
      * intros q Hq. apply first_hit_root_inv in Hq. subst q. reflexivity.
    + rewrite bool_decide_eq_false_2 by exact He.
      pose proof (first_hit_children e l r x He) as Hsplit.
      destruct IHl as [[Hnl Hl]|(pl & Hpl & Hl & Hml)];
        destruct IHr as [[Hnr Hr]|(pr & Hpr & Hr & Hmr)];
        rewrite Hl, Hr.
      * left. split; [tauto|reflexivity].
      * right. exists (Right :: pr). split_and!.
        -- apply (first_hit_step e l r x Right pr He). exact Hpr.
        -- simpl. destruct (Z.ltb_spec (-1) (Z.of_nat (levels (deref r pr)) - 1)); lia.
        -- intros q Hq. destruct (Hsplit q Hq) as [(q' & -> & Hq')|(q' & -> & Hq')].
           ++ exfalso. apply Hnl. eapply first_hit_stored. exact Hq'.
           ++ simpl. apply Hmr in Hq'. lia.
      * right. exists (Left :: pl). split_and!.
        -- apply (first_hit_step e l r x Left pl He). exact Hpl.
        -- simpl. destruct (Z.ltb_spec (Z.of_nat (levels (deref l pl)) - 1) (-1)); lia.
        -- intros q Hq. destruct (Hsplit q Hq) as [(q' & -> & Hq')|(q' & -> & Hq')].
           ++ simpl. apply Hml in Hq'. lia.
           ++ exfalso. apply Hnr. eapply first_hit_stored. exact Hq'.
      * destruct (Z.ltb_spec (Z.of_nat (levels (deref l pl)) - 1)
                    (Z.of_nat (levels (deref r pr)) - 1)) as [Hlt|Hge]; right.
        -- exists (Right :: pr). split_and!.
           ++ apply (first_hit_step e l r x Right pr He). exact Hpr.
           ++ reflexivity.
           ++ intros q Hq.
              destruct (Hsplit q Hq) as [(q' & -> & Hq')|(q' & -> & Hq')]; simpl.
              ** apply Hml in Hq'. lia.
              ** apply Hmr in Hq'. lia.
        -- exists (Left :: pl). split_and!.
           ++ apply (first_hit_step e l r x Left pl He). exact Hpl.
           ++ reflexivity.
           ++ intros q Hq.
              destruct (Hsplit q Hq) as [(q' & -> & Hq')|(q' & -> & Hq')]; simpl.
              ** apply Hml in Hq'. lia.
              ** apply Hmr in Hq'. lia.
Qed.

(** Where [x] is stored at one node only, that node is the first hit. *)
Lemma unique_first_hit t x p :
  holds t x p -> (forall q, holds t x q -> q = p) -> first_hit t x p.
Proof. intros Hp Hu. split; [exact Hp|]. intros q _ Hq. apply Hu. exact Hq. Qed.

(** ** [insert] and the stored elements *)

Lemma stored_deref t p e l r : deref t p = Node e l r -> stored e t.
Proof.
  intros Hp. apply stored_holds. exists p. unfold holds, elem_at.
  rewrite Hp. reflexivity.
Qed.

(** The loop returns early only on an element that is stored. *)
Lemma insert_loop_cases t x fuel queue :
  queue <> [] -> Forall (live t) queue -> (weight t queue <= fuel)%nat ->
  (stored x t /\ insert_loop t x fuel queue = Ok None) \/
  exists p d, live t p /\ deref t (child p d) = nullptr /\
    insert_loop t x fuel queue =
      Ok (Some (store t (child p d) (Node x nullptr nullptr))).
Proof.
  revert queue. induction fuel as [|fuel IH]; intros queue Hne Hlive Hw;
    (destruct queue as [|p queue]; [congruence|]);
    apply list.Forall_cons in Hlive as [Hp Hq];
    pose proof (weight_dequeue t p queue Hp) as Hd;
    pose proof (live_dequeue t p queue Hq); [lia|].
  simpl. destruct (deref t p) as [|e l r] eqn:E; [contradiction|].
  pose proof (deref_child_node _ _ _ _ _ Left E) as Hl.
  pose proof (deref_child_node _ _ _ _ _ Right E) as Hr.
  destruct l as [|le ll lr].
  { right. exists p, Left. split_and!; [exact Hp|exact Hl|reflexivity]. }
  destruct (decide (le = x)) as [<-|].
  { left. split; [|reflexivity]. eapply stored_deref. exact Hl. }
  destruct r as [|re rl rr].
  { right. exists p, Right. split_and!; [exact Hp|exact Hr|reflexivity]. }
  destruct (decide (re = x)) as [<-|].
  { left. split; [|reflexivity]. eapply stored_deref. exact Hr. }
  replace ((queue ++ [child p Left]) ++ [child p Right])
    with (queue ++ children t p)
    by (rewrite (children_node _ _ _ _ _ E), <- app_assoc; reflexivity).
  apply IH; [|assumption|lia].
  rewrite (children_node _ _ _ _ _ E). destruct queue; discriminate.
Qed.

(** [insert] either finds the element stored and changes nothing, or hangs
    a new leaf into an empty slot of an existing node. *)
Lemma insert_cases x b :
  (stored x (root b) /\ insert x b = Ok b) \/
  exists s, slot_exists (root b) s /\ deref (root b) s = nullptr /\
    insert x b =
      Ok (mkTree (store (root b) s (Node x nullptr nullptr)) (treeSize b + 1)).
Proof.
  unfold insert. destruct (root b) as [|e l r] eqn:E.
  - right. exists []. split_and!; [exact I|reflexivity|reflexivity].
  - destruct (decide (e = x)) as [->|He]; [left; split; [simpl; auto|reflexivity]|].
    rewrite <- E.
    destruct (insert_loop_cases (root b) x (nodes (root b)) [[]])
      as [[Hs Hr]|(p & d & Hp & Hc & Hr)]; try rewrite Hr.
    + discriminate.
    + repeat constructor. unfold live. rewrite E. discriminate.
    + rewrite weight_root. lia.
    + left. split; [exact Hs|reflexivity].
    + right. exists (child p d). split_and!; [|exact Hc|reflexivity].
      apply slot_exists_child. exact Hp.
Qed.

Lemma stored_store_leaf t s x y :
  slot_exists t s -> deref t s = nullptr ->
  stored y (store t s (Node x nullptr nullptr)) <-> y = x \/ stored y t.
Proof.
  intros Hs Hn. rewrite !stored_holds. unfold holds. split.
  - intros [q Hq]. rewrite (elem_at_store_leaf _ _ _ _ Hs Hn) in Hq.
    case_decide; [left; congruence|right; eauto].
  - intros [->|[q Hq]].
    + exists s. rewrite (elem_at_store_leaf _ _ _ _ Hs Hn).
      rewrite decide_True by reflexivity. reflexivity.
    + exists q. rewrite (elem_at_store_leaf _ _ _ _ Hs Hn).
      rewrite decide_False; [exact Hq|]. intros ->.
      apply elem_at_None in Hn. congruence.
Qed.

(** ** [insert] and the first empty slot *)

Lemma filter_slots_free t p e l r :
  deref t p = Node e l r ->
  filter (fun s => deref t s = nullptr) (slots p) =
    (if is_null l then [child p Left] else []) ++
    (if is_null r then [child p Right] else []).
Proof.
  intros E. unfold slots.
  pose proof (deref_child_node _ _ _ _ _ Left E) as Hl.
  pose proof (deref_child_node _ _ _ _ _ Right E) as Hr.
  rewrite filter_cons, (filter_cons _ (child p Right) []), filter_nil.
  destruct l, r; simpl in *; repeat case_decide; try congruence; reflexivity.
Qed.

(** For an element that is not stored, the loop hangs the new leaf into the
    first empty child slot of the enumeration. *)
Lemma insert_loop_first_free t x fuel queue :
  ~ stored x t ->
  queue <> [] -> Forall (live t) queue -> (weight t queue <= fuel)%nat ->
  exists s,
    head (filter (fun s => deref t s = nullptr) (bfs t fuel queue ≫= slots)) = Some s /\
    insert_loop t x fuel queue = Ok (Some (store t s (Node x nullptr nullptr))).
Proof.
  intros Hx. revert queue.
  induction fuel as [|fuel IH]; intros queue Hne Hlive Hw;
    (destruct queue as [|p queue]; [congruence|]);
    apply list.Forall_cons in Hlive as [Hp Hq];
    pose proof (weight_dequeue t p queue Hp) as Hd;
    pose proof (live_dequeue t p queue Hq); [lia|].
  change (bfs t (S fuel) (p :: queue))
    with (p :: bfs t fuel (queue ++ children t p)).
  rewrite bind_cons, filter_app. simpl insert_loop.
  destruct (deref t p) as [|e l r] eqn:E; [contradiction|].
  rewrite (filter_slots_free _ _ _ _ _ E).
  pose proof (deref_child_node _ _ _ _ _ Left E) as Hl.
  pose proof (deref_child_node _ _ _ _ _ Right E) as Hr.
  destruct l as [|le ll lr]; [eexists; split; reflexivity|].
  destruct (decide (le = x)) as [<-|];
    [exfalso; apply Hx; eapply stored_deref; exact Hl|].
  destruct r as [|re rl rr]; [eexists; split; reflexivity|].
  destruct (decide (re = x)) as [<-|];
    [exfalso; apply Hx; eapply stored_deref; exact Hr|].
  replace ((queue ++ [child p Left]) ++ [child p Right])
    with (queue ++ children t p)
    by (rewrite (children_node _ _ _ _ _ E), <- app_assoc; reflexivity).
  apply IH; [|assumption|lia].
  rewrite (children_node _ _ _ _ _ E). destruct queue; discriminate.
Qed.

Lemma first_free_slot t s :
  first_free t = Some s -> slot_exists t s /\ deref t s = nullptr.
Proof.
  unfold first_free. intros Hs. apply head_Some_elem_of in Hs.
  apply list_elem_of_filter in Hs as [Hn Hs]. split; [|exact Hn].
  apply list_elem_of_bind in Hs as (p & Hs & Hp).
  pose proof (level_order_live t) as Hl. rewrite list.Forall_forall in Hl.
  apply Hl in Hp. unfold slots in Hs.
  apply elem_of_cons in Hs as [->|Hs]; [apply slot_exists_child; exact Hp|].
  apply list_elem_of_singleton in Hs as ->. apply slot_exists_child. exact Hp.
Qed.

Lemma insert_first_free x b :
  root b <> nullptr -> ~ stored x (root b) ->
  exists s, first_free (root b) = Some s /\
    insert x b =
      Ok (mkTree (store (root b) s (Node x nullptr nullptr)) (treeSize b + 1)).
Proof.
  intros Ht Hx. unfold insert, first_free, level_order.
  rewrite (proj2 (is_null_false _) Ht).
  destruct (root b) as [|e l r] eqn:E; [congruence|].
  destruct (decide (e = x)) as [->|He]; [exfalso; apply Hx; simpl; auto|].
  rewrite <- E in *.
  destruct (insert_loop_first_free (root b) x (nodes (root b)) [[]] Hx)
    as (s & Hs & Hr).
  - discriminate.
  - repeat constructor. exact Ht.
  - rewrite weight_root. lia.
  - exists s. rewrite Hr. split; [exact Hs|reflexivity].
Qed.

(** ** Sequences of [insert] with repetitions *)

Lemma first_occurrences_snoc (xs : list T) x :
  first_occurrences (xs ++ [x]) = add_new (first_occurrences xs) x.
Proof. unfold first_occurrences. apply foldl_snoc. Qed.

Lemma elem_of_first_occurrences (xs : list T) x :
  x ∈ first_occurrences xs <-> x ∈ xs.
Proof.
  induction xs as [|y xs IH] using rev_ind; [reflexivity|].
  rewrite first_occurrences_snoc, elem_of_app, list_elem_of_singleton.
  unfold add_new. case_decide as Hy.
  - rewrite IH. split; [tauto|]. intros [Hx| ->]; [exact Hx|].
    apply IH. exact Hy.
  - rewrite elem_of_app, list_elem_of_singleton, IH. tauto.
Qed.

Lemma NoDup_first_occurrences (xs : list T) : NoDup (first_occurrences xs).
Proof.
  induction xs as [|y xs IH] using rev_ind; [constructor|].
  rewrite first_occurrences_snoc. unfold add_new. case_decide as Hy; [exact IH|].
  apply NoDup_app. split_and!; [exact IH| |repeat constructor; apply not_elem_of_nil].
  intros z Hz Hzy. apply list_elem_of_singleton in Hzy as ->. contradiction.
Qed.

Lemma inserts_first_occurrences (xs : list T) :
  exists t,
    inserts xs empty_tree =
      Ok (mkTree t (Z.of_nat (length (first_occurrences xs)))) /\
    nodes t = length (first_occurrences xs) /\
    complete_with t (first_occurrences xs).
Proof.
  induction xs as [|y xs (t & Hi & Hn & Hc)] using rev_ind.
  - exists nullptr. split_and!; try reflexivity. apply complete_with_nil.
  - rewrite inserts_snoc, Hi, first_occurrences_snoc. simpl. unfold add_new.
    case_decide as Hy.
    + exists t. split_and!; [|exact Hn|exact Hc].
      apply insert_duplicate_complete with (xs := first_occurrences xs); assumption.
    + destruct (insert_complete t _ y (Z.of_nat (length (first_occurrences xs)))
                  Hc Hn Hy) as (t' & Hi' & Hc' & Hn').
      exists t'. rewrite Hi'.
      assert (Hlen : length (first_occurrences xs ++ [y]) =
                     S (length (first_occurrences xs)))
        by (rewrite length_app; simpl; lia).
      rewrite Hlen. split_and!; [do 2 f_equal; lia|exact Hn'|exact Hc'].
Qed.

Lemma first_occurrences_NoDup (xs : list T) : NoDup xs -> first_occurrences xs = xs.
Proof.
  induction xs as [|y xs IH] using rev_ind; intros Hnd; [reflexivity|].
  apply NoDup_app in Hnd as (Hnd & Hy & _).
  rewrite first_occurrences_snoc, (IH Hnd). unfold add_new.
  rewrite decide_False; [reflexivity|]. intros Hin. apply (Hy y Hin). left.
Qed.

(** Inserting distinct elements gives the complete tree holding them. *)
Lemma inserts_distinct (xs : list T) :
  NoDup xs ->
  exists t,
    inserts xs empty_tree = Ok (mkTree t (Z.of_nat (length xs))) /\
    nodes t = length xs /\ complete_with t xs.
Proof.
  intros Hnd. destruct (inserts_first_occurrences xs) as (t & Hi & Hn & Hc).
  rewrite (first_occurrences_NoDup xs Hnd) in *. eauto.
Qed.

(** ** [remove] and the stored elements *)

Lemma elem_at_leaf_below e d q : elem_at (Node e (@nullptr T) nullptr) (d :: q) = None.
Proof. unfold elem_at. destruct d; simpl; rewrite deref_nullptr; reflexivity. Qed.

(** Cutting off a leaf empties its address and no other. *)
Lemma elem_at_cut_leaf t s e q :
  deref t s = Node e nullptr nullptr ->
  elem_at (store t s nullptr) q = if decide (q = s) then None else elem_at t q.
Proof.
  revert t q. induction s as [|d s IH]; intros t q Hs.
  - simpl in *. subst t. rewrite elem_at_nullptr.
    destruct q as [|d q]; [reflexivity|]. rewrite elem_at_leaf_below.
    case_decide; reflexivity.
  - destruct t as [|e0 l r];
      [destruct d; simpl in Hs; rewrite deref_nullptr in Hs; discriminate|].
    destruct q as [|d' q]; [destruct d; reflexivity|].
    destruct d, d'; simpl in *; unfold elem_at in *; simpl;
      try (rewrite (IH _ q Hs));
      repeat case_decide; try congruence; reflexivity.
Qed.

(** Overwriting the element of a node changes the element at its address
    and at no other. *)
Lemma elem_at_set_element t p e q :
  live t p ->
  elem_at (set_element t p e) q = if decide (q = p) then Some e else elem_at t q.
Proof.
  unfold live, set_element. revert t q. induction p as [|d p IH]; intros t q Hp.
  - simpl in *. destruct t as [|e0 l r]; [congruence|]. simpl.
    destruct q as [|d q]; [reflexivity|]. case_decide; [congruence|].
    unfold elem_at. destruct d; reflexivity.
  - destruct t as [|e0 l r];
      [destruct d; simpl in Hp; rewrite deref_nullptr in Hp; congruence|].
    specialize (IH (slot d (Node e0 l r))). simpl in Hp |- *.
    destruct (deref (slot d (Node e0 l r)) p) as [|e1 l1 r1] eqn:E; [congruence|].
    destruct q as [|d' q]; [destruct d; reflexivity|].
    destruct d, d'; simpl in *; unfold elem_at in *; simpl;
      try (specialize (IH q Hp); rewrite IH);
      repeat case_decide; try congruence; reflexivity.
Qed.

Lemma deref_set_element_leaf t p e s e' :
  deref t s = Node e' nullptr nullptr ->
  exists e'', deref (set_element t p e) s = Node e'' nullptr nullptr.
Proof.
  intros Hs. pose proof (same_shape_deref _ _ s (set_element_shape t p e)) as Hd.
  rewrite Hs in Hd. destruct (deref (set_element t p e) s) as [|e'' l r];
    [contradiction|].
  simpl in Hd. destruct l, r; simpl in Hd; try tauto. eauto.
Qed.

(** The elements of the tree [remove] leaves. *)
Lemma elem_at_remove_result t pd s e q :
  live t pd -> deref t s = Node e nullptr nullptr ->
  elem_at (store (set_element t pd e) s nullptr) q =
    if decide (q = s) then None
    else if decide (q = pd) then Some e else elem_at t q.
Proof.
  intros Hpd Hs. destruct (deref_set_element_leaf t pd e s e Hs) as [e'' Hs'].
  rewrite (elem_at_cut_leaf _ _ _ _ Hs'). case_decide; [reflexivity|].
  apply elem_at_set_element. exact Hpd.
Qed.

(** [remove] of a stored element, on any tree: what it returns holds, for
    every other element, exactly the nodes' elements it held. *)
Lemma remove_stored x b :
  stored x (root b) ->
  exists b',
    remove x b = Ok b' /\
    (forall y, y <> x -> stored y (root b') <-> stored y (root b)) /\
    ((forall q1 q2, holds (root b) x q1 -> holds (root b) x q2 -> q1 = q2) ->
     ~ stored x (root b')).
Proof.
  intros Hx. destruct (decide (1 < nodes (root b))%nat) as [Hn|Hn].
  - destruct (remove_present x b Hx Hn) as (pd & s & e & Hpd & Hs & He & Hr).
    pose proof (last_filter_holds _ _ _ Hpd) as Hh.
    pose proof (holds_live _ _ _ Hh) as Hl.
    eexists. split; [exact Hr|]. simpl. split.
    + intros y Hy. rewrite !stored_holds. unfold holds.
      split; intros [q Hq].
      * rewrite (elem_at_remove_result _ _ _ _ _ Hl He) in Hq.
        repeat case_decide; try discriminate; [|eauto].
        exists s. unfold elem_at. rewrite He. congruence.
      * destruct (decide (q = s)) as [->|Hqs].
        -- exists pd. rewrite (elem_at_remove_result _ _ _ _ _ Hl He).
           unfold elem_at in Hq. rewrite He in Hq.
           destruct (decide (pd = s)) as [->|Hps];
             [unfold elem_at in Hh; rewrite He in Hh; congruence|].
           rewrite decide_True by reflexivity. exact Hq.
        -- exists q. rewrite (elem_at_remove_result _ _ _ _ _ Hl He).
           rewrite decide_False by exact Hqs.
           rewrite decide_False; [exact Hq|]. intros ->. congruence.
    + intros Hu Hx'. apply stored_holds in Hx' as [q Hq]. unfold holds in Hq.
      rewrite (elem_at_remove_result _ _ _ _ _ Hl He) in Hq.
      destruct (decide (q = s)) as [|Hqs]; [discriminate|].
      destruct (decide (q = pd)) as [->|Hqp].
      * injection Hq as ->. apply Hqs. apply Hu; [exact Hh|].
        unfold holds, elem_at. rewrite He. reflexivity.
      * apply Hqp. apply Hu; assumption.
  - destruct (root b) as [|e l r] eqn:E; [contradiction|].
    destruct l, r; simpl in Hn; try lia. simpl in Hx.
    destruct Hx as [->|[[]|[]]].
    exists (mkTree nullptr 0). split; [apply remove_single; exact E|].
    simpl. split; [intros y Hy; split; [tauto|intros [?|[[]|[]]]; congruence]|tauto].
Qed.

(** ** [remove] on a complete tree *)

Lemma complete_stored t (xs : list T) x : complete_with t xs -> stored x t -> x ∈ xs.
Proof.
  intros Hc Hx. apply stored_holds in Hx as [q Hq]. unfold holds in Hq.
  rewrite Hc in Hq. eapply list_elem_of_lookup_2. exact Hq.
Qed.

Lemma complete_stored_iff t (xs : list T) x :
  complete_with t xs -> nodes t = length xs -> stored x t <-> x ∈ xs.
Proof.
  intros Hc Hn. split; [apply complete_stored; exact Hc|].
  intros Hx. apply list_elem_of_lookup in Hx as [j Hj].
  pose proof (f_equal (fun L => L !! j) (level_order_complete_elems t xs Hc Hn)) as Hl.
  simpl in Hl. rewrite !list_lookup_fmap, Hj in Hl.
  destruct (level_order t !! j) as [p|]; [|discriminate].
  simpl in Hl. apply stored_holds. exists p. congruence.
Qed.

Lemma level_order_complete_last t (xs : list T) s :
  complete_with t xs -> nodes t = length xs ->
  last (level_order t) = Some s -> index s = length xs.
Proof.
  intros Hc Hn Hs.
  pose proof (f_equal last (level_order_complete_index t xs Hc Hn)) as Hl.
  rewrite fmap_last, Hs, last_lookup, length_seq in Hl. simpl in Hl.
  symmetry in Hl. apply lookup_seq in Hl. lia.
Qed.

(** On the complete tree holding distinct [xs], [remove] of the element at
    position [j] leaves the complete tree of [xs] with the last element
    moved to position [j] and the last position dropped. *)
Lemma remove_complete t (xs : list T) x e j :
  complete_with t xs -> nodes t = length xs -> NoDup xs ->
  xs !! j = Some x -> last xs = Some e ->
  exists t',
    remove x (mkTree t (Z.of_nat (length xs))) =
      Ok (mkTree t' (Z.of_nat (length xs - 1))) /\
    nodes t' = (length xs - 1)%nat /\
    complete_with t' (take (length xs - 1) (<[j:=e]> xs)).
Proof.
  intros Hc Hn Hnd Hj He. pose proof (lookup_lt_Some _ _ _ Hj) as Hjn.
  assert (Hx : stored x t).
  { apply (complete_stored_iff t xs x Hc Hn). eapply list_elem_of_lookup_2. exact Hj. }
  destruct (decide (1 < nodes t)%nat) as [Hn1|Hn1].
  - destruct (remove_present x (mkTree t (Z.of_nat (length xs))) Hx Hn1)
      as (pd & s & e' & Hpd & Hs & He' & Hr). simpl in *.
    pose proof (last_filter_holds _ _ _ Hpd) as Hh.
    pose proof (holds_live _ _ _ Hh) as Hl.
    pose proof (level_order_complete_last t xs s Hc Hn Hs) as Hsi.
    assert (e' = e) as ->.
    { pose proof (Hc s) as Hcs. unfold elem_at in Hcs. rewrite He', Hsi in Hcs.
      rewrite last_lookup in He.
      replace (pred (length xs)) with (length xs - 1)%nat in He by lia. congruence. }
    assert (Hpj : (index pd - 1)%nat = j).
    { eapply NoDup_lookup; [exact Hnd| |exact Hj]. rewrite <- Hc. exact Hh. }
    eexists. split_and!.
    + rewrite Hr. do 2 f_equal. lia.
    + pose proof (nodes_remove_result t pd s e He'). lia.
    + intros q. rewrite (elem_at_remove_result _ _ _ _ _ Hl He').
      pose proof (index_pos q). pose proof (index_pos pd).
      destruct (decide (q = s)) as [->|Hqs].
      * rewrite lookup_take_ge by lia. reflexivity.
      * assert (index q <> length xs)
          by (intros Hi; apply Hqs, index_inj; congruence).
        destruct (decide (index q - 1 < length xs - 1)%nat) as [Hlt|Hge].
        -- rewrite lookup_take_lt by exact Hlt.
           rewrite list_lookup_insert.
           destruct (decide (q = pd)) as [->|Hqp].
           ++ rewrite decide_True; [reflexivity|]. split; [congruence|lia].
           ++ rewrite decide_False; [apply Hc|].
              intros [Hij _]. apply Hqp, index_inj. lia.
        -- rewrite lookup_take_ge by lia.
           assert (Hnone : elem_at t q = None)
             by (rewrite Hc; apply lookup_ge_None_2; lia).
           rewrite Hnone. case_decide as Hqp; [|reflexivity].
           subst q. unfold holds in Hh. congruence.
  - destruct t as [|e0 l r]; [simpl in Hn; lia|].
    destruct l, r; simpl in Hn1; try lia. simpl in Hn.
    destruct xs as [|x0 [|]]; simpl in Hn; try lia.
    destruct j; [|simpl in Hjn; lia]. injection Hj as ->.
    pose proof (Hc []) as Hroot. unfold elem_at in Hroot. simpl in Hroot.
    injection Hroot as ->.
    exists nullptr. split_and!; [apply remove_single; reflexivity|reflexivity|].
    apply complete_with_nil.
Qed.


(** A tree in which every node without a left child has no right child. *)
Lemma no_right_only_addresses t :
  (forall p, deref t (child p Left) = nullptr -> deref t (child p Right) = nullptr) ->
  no_right_only t.
Proof.
  induction t as [|e l IHl r IHr]; intros Ha; simpl; [exact I|]. split_and!.
  - apply (Ha []).
  - apply IHl. intros p. apply (Ha (Left :: p)).
  - apply IHr. intros p. apply (Ha (Right :: p)).
Qed.

Lemma complete_no_right_only t (xs : list T) : complete_with t xs -> no_right_only t.
Proof.
  intros Hc. apply no_right_only_addresses. intros p Hl.
  pose proof (complete_live t xs (child p Left) Hc) as Hll.
  pose proof (complete_live t xs (child p Right) Hc) as Hlr.
  rewrite index_child in Hll, Hlr. unfold live in Hll, Hlr.
  destruct (decide (deref t (child p Right) = nullptr)) as [|Hr]; [assumption|].
  apply Hlr in Hr. exfalso. apply Hll; [lia|exact Hl].
Qed.

(** ** Copy assignment *)

Lemma copy_assign_spec (this a : BinaryTree T) :
  root a <> nullptr ->
  copy_assign this a = Ok (mkTree (root a) (Z.of_nat (nodes (root a)))).
Proof. intros Ha. unfold copy_assign. rewrite copy_ctor_spec by exact Ha. reflexivity. Qed.

Lemma copy_assign_empty (this a : BinaryTree T) :
  root a = nullptr -> copy_assign this a = Fault.
Proof. intros Ha. unfold copy_assign. rewrite copy_ctor_empty by exact Ha. reflexivity. Qed.

(** ** Depth in a complete tree *)

Lemma log2_index p : Nat.log2 (index p) = length p.
Proof.
  induction p as [|d p IH] using rev_ind; [reflexivity|].
  rewrite index_snoc, length_app. simpl length. pose proof (index_pos p).
  destruct d.
  - rewrite Nat.log2_double by lia. lia.
  - rewrite Nat.log2_succ_double by lia. lia.
Qed.

(** In the complete tree holding distinct [xs], the element at position [j]
    of [xs] is held by one node only, at the address of array position
    [j + 1]. *)
Lemma complete_address t (xs : list T) x j :
  complete_with t xs -> nodes t = length xs -> NoDup xs -> xs !! j = Some x ->
  exists p, index p = S j /\ holds t x p /\ forall q, holds t x q -> q = p.
Proof.
  intros Hc Hn Hnd Hj.
  pose proof (f_equal (fun L => L !! j) (level_order_complete_index t xs Hc Hn)) as Hi.
  simpl in Hi. rewrite list_lookup_fmap in Hi.
  rewrite (lookup_seq_lt 1 (length xs) j) in Hi by (eapply lookup_lt_Some; eauto).
  destruct (level_order t !! j) as [p|]; [|discriminate].
  simpl in Hi. injection Hi as Hi. exists p.
  assert (Hp : holds t x p).
  { unfold holds. rewrite Hc, Hi. simpl. rewrite Nat.sub_0_r. exact Hj. }
  split_and!; [exact Hi|exact Hp|].
  intros q Hq. apply index_inj. unfold holds in Hq. rewrite Hc in Hq.
  pose proof (NoDup_lookup _ _ _ _ Hnd Hq Hj). pose proof (index_pos q). lia.
Qed.

Lemma depth_unique x b p :
  holds (root b) x p -> (forall q, holds (root b) x q -> q = p) ->
  depth x b = Z.of_nat (length p).
Proof.
  intros Hp Hu. rewrite depth_getDepth.
  destruct (getDepth_spec (root b) x 0%Z) as [[Hn _]|(p' & [Hp' _] & Hd & _)]; [lia| |].
  - exfalso. apply Hn, stored_holds. eauto.
  - rewrite Hd, (Hu p' Hp'). lia.
Qed.

Lemma height_unique x b p :
  holds (root b) x p -> (forall q, holds (root b) x q -> q = p) ->
  height x b = (Z.of_nat (levels (deref (root b) p)) - 1)%Z.
Proof.
  intros Hp Hu. rewrite height_getHeight.
  destruct (getHeight_spec (root b) x) as [[Hn _]|(p' & [Hp' _] & Hd & _)].
  - exfalso. apply Hn, stored_holds. eauto.
  - rewrite Hd, (Hu p' Hp'). reflexivity.
Qed.

End MoreFacts.

(** * The printed text *)

Lemma string_app_nil_l (a : string) : "" +:+ a = a.
Proof. reflexivity. Qed.

Lemma string_app_cons ch (a c : string) : String ch a +:+ c = String ch (a +:+ c).
Proof. reflexivity. Qed.

Lemma string_app_assoc (a c d : string) : (a +:+ c) +:+ d = a +:+ c +:+ d.
Proof.
  induction a as [|ch a IH]; [reflexivity|].
  rewrite !string_app_cons, IH. reflexivity.
Qed.

Lemma string_app_nil_r (a : string) : a +:+ "" = a.
Proof.
  induction a as [|ch a IH]; [reflexivity|]. rewrite string_app_cons, IH.
  reflexivity.
Qed.

Lemma join_nil : join [] = "".
Proof. reflexivity. Qed.

Lemma join_singleton (a : string) : join [a] = a.
Proof. reflexivity. Qed.

(** Normal form of a text: appends associated to the right, empty texts
    and empty sequences removed. *)
Ltac text_nf :=
  cbn [inorder preorder postorder is_null];
  rewrite ?fmap_nil, ?app_nil_r, ?app_nil_l, ?join_nil, ?join_singleton,
    ?string_app_assoc, ?string_app_nil_l, ?string_app_nil_r.

Lemma join_cons (a : string) (B : list string) :
  B <> [] -> join (a :: B) = a +:+ ", " +:+ join B.
Proof. destruct B; [congruence|reflexivity]. Qed.

Lemma join_app (A B : list string) :
  A <> [] -> B <> [] -> join (A ++ B) = join A +:+ ", " +:+ join B.
Proof.
  intros HA HB. induction A as [|a A IH]; [congruence|].
  destruct A as [|a' A].
  - simpl app. rewrite join_cons by exact HB. reflexivity.
  - change ((a :: a' :: A) ++ B) with (a :: ((a' :: A) ++ B)).
    rewrite join_cons by discriminate. rewrite IH by discriminate.
    rewrite (join_cons a (a' :: A)) by discriminate.
    rewrite !string_app_assoc. reflexivity.
Qed.

Section PrintFacts.
Context {T : Type} (show : T -> string).

Lemma inorder_nonempty e l r : show <$> inorder (Node e l r) <> [].
Proof.
  cbn [inorder]. rewrite fmap_app, fmap_cons.
  destruct (show <$> inorder l); discriminate.
Qed.

Lemma preorder_nonempty e l r : show <$> preorder (Node e l r) <> [].
Proof. cbn [preorder]. rewrite fmap_cons. discriminate. Qed.

Lemma postorder_nonempty e l r : show <$> postorder (Node e l r) <> [].
Proof.
  cbn [postorder]. rewrite !fmap_app. destruct (show <$> postorder l); [|discriminate].
  destruct (show <$> postorder r); discriminate.
Qed.

(** In order [i], [print] writes the elements in inorder, separated. *)
Lemma print_inorder t : print show t "i" = join (show <$> inorder t).
Proof.
  induction t as [|e l IHl r IHr]; [reflexivity|].
  cbn [print inorder]. change (Ascii.eqb "i" "i") with true. cbv iota.
  rewrite IHl, IHr, fmap_app, fmap_cons.
  destruct l as [|le ll lr], r as [|re rl rr]; text_nf.
  - reflexivity.
  - rewrite join_cons by apply inorder_nonempty. reflexivity.
  - rewrite join_app; [|apply inorder_nonempty|discriminate]. reflexivity.
  - rewrite join_app; [|apply inorder_nonempty|discriminate].
    rewrite join_cons by apply inorder_nonempty. reflexivity.
Qed.

(** [operator<<] on a node writes the same text. *)
Lemma stream_node_inorder t : stream_node show t = join (show <$> inorder t).
Proof.
  induction t as [|e l IHl r IHr]; [reflexivity|].
  cbn [stream_node inorder]. rewrite IHl, IHr, fmap_app, fmap_cons.
  destruct l as [|le ll lr], r as [|re rl rr]; text_nf.
  - reflexivity.
  - rewrite join_cons by apply inorder_nonempty. reflexivity.
  - rewrite join_app; [|apply inorder_nonempty|discriminate]. reflexivity.
  - rewrite join_app; [|apply inorder_nonempty|discriminate].
    rewrite join_cons by apply inorder_nonempty. reflexivity.
Qed.

(** In order [r], [print] writes the elements in preorder, separated. *)
Lemma print_preorder t : print show t "r" = join (show <$> preorder t).
Proof.
  induction t as [|e l IHl r IHr]; [reflexivity|].
  cbn [print preorder]. change (Ascii.eqb "r" "i") with false.
  change (Ascii.eqb "r" "r") with true. cbv iota.
  rewrite IHl, IHr, fmap_cons, fmap_app.
  destruct l as [|le ll lr], r as [|re rl rr]; text_nf.
  - reflexivity.
  - rewrite join_cons by apply preorder_nonempty. reflexivity.
  - rewrite join_cons by apply preorder_nonempty. reflexivity.
  - rewrite join_cons.
    + rewrite join_app by apply preorder_nonempty. reflexivity.
    + destruct (show <$> preorder (Node le ll lr)) eqn:E; [|discriminate].
      exfalso. eapply preorder_nonempty. exact E.
Qed.

(** In order [o], on a tree without a node that has a right child only,
    [print] writes the elements in postorder, separated. *)
Lemma print_postorder t :
  no_right_only t -> print show t "o" = join (show <$> postorder t).
Proof.
  induction t as [|e l IHl r IHr]; [reflexivity|].
  intros (Hlr & Hl & Hr).
  cbn [print postorder]. change (Ascii.eqb "o" "i") with false.
  change (Ascii.eqb "o" "r") with false. change (Ascii.eqb "o" "o") with true.
  cbv iota. rewrite (IHl Hl), (IHr Hr), !fmap_app.
  destruct l as [|le ll lr], r as [|re rl rr]; text_nf.
  - reflexivity.
  - specialize (Hlr eq_refl). discriminate.
  - rewrite join_app; [|apply postorder_nonempty|discriminate]. reflexivity.
  - rewrite join_app; [|apply postorder_nonempty|].
    + rewrite join_app; [|apply postorder_nonempty|discriminate]. reflexivity.
    + intros Heq. apply (f_equal length) in Heq.
      rewrite length_app, !length_fmap in Heq. simpl in Heq. lia.
Qed.

(** A node with a right child only: the separator is written in front of
    the right subtree and none in front of the element. *)
Lemma print_postorder_right_only e re rl rr :
  print show (Node e nullptr (Node re rl rr)) "o" =
    ", " +:+ print show (Node re rl rr) "o" +:+ show e.
Proof.
  cbn [print]. change (Ascii.eqb "o" "i") with false.
  change (Ascii.eqb "o" "r") with false. change (Ascii.eqb "o" "o") with true.
  cbv iota. cbn [is_null]. rewrite string_app_assoc. reflexivity.
Qed.

End PrintFacts.

(** * Further properties of BinaryTree.hpp *)

(** X1. [invertTree] is its own inverse, keeps the size, and moves the
    element at every address to the mirrored address. *)
Theorem invertTree_mirrors :
  forall (T : Type) (EqT : EqDecision T) (b : BinaryTree T),
    invertTree (invertTree b) = b /\
    size (invertTree b) = size b /\
    nodes (root (invertTree b)) = nodes (root b) /\
    forall p, elem_at (root (invertTree b)) p = elem_at (root b) (mirror p).
Proof.
  intros T EqT [t n]. unfold invertTree, size. simpl. split_and!.
  - rewrite invert_involutive. reflexivity.
  - reflexivity.
  - apply nodes_invert.
  - apply elem_at_invert.
Qed.

(** X2. [invertTree] changes the answer of none of the queries:
    [bfsearch], [dfsearch], [depth] and [height] return what they returned
    before. *)
Theorem invertTree_keeps_queries :
  forall (T : Type) (EqT : EqDecision T) (x : T) (b : BinaryTree T),
    bfsearch x (invertTree b) = bfsearch x b /\
    dfsearch x (invertTree b) = dfsearch x b /\
    depth x (invertTree b) = depth x b /\
    height x (invertTree b) = height x b.
Proof.
  intros T EqT x b. rewrite !bfsearch_spec, !dfsearch_spec.
  rewrite !depth_getDepth, !height_getHeight. simpl.
  rewrite getDepth_invert, getHeight_invert.
  assert (Hb : bool_decide (stored x (invert (root b))) =
               bool_decide (stored x (root b)))
    by (apply bool_decide_ext, stored_invert).
  rewrite Hb. auto.
Qed.

(** X3. For a stored element, [depth] returns the number of edges from the
    root to a node at which the element is first met on the way down, and
    of all such nodes a deepest one. *)
Theorem depth_of_stored :
  forall (T : Type) (EqT : EqDecision T) (x : T) (b : BinaryTree T),
    stored x (root b) ->
    exists p,
      first_hit (root b) x p /\
      depth x b = Z.of_nat (length p) /\
      forall q, first_hit (root b) x q -> (length q <= length p)%nat.
Proof.
  intros T EqT x b Hx. rewrite depth_getDepth.
  destruct (getDepth_spec (root b) x 0%Z) as [[Hn _]|(p & Hp & Hd & Hm)];
    [lia|contradiction|].
  exists p. split_and!; [exact Hp|rewrite Hd; lia|exact Hm].
Qed.

Lemma depth_of_stored_witness :
  stored 5%Z tree_12345 /\
  exists p,
    first_hit tree_12345 5%Z p /\
    depth 5%Z (mkTree tree_12345 5) = Z.of_nat (length p) /\
    forall q, first_hit tree_12345 5%Z q -> (length q <= length p)%nat.
Proof.
  assert (Hx : stored 5%Z tree_12345) by (simpl; auto 10).
  split; [exact Hx|]. exact (depth_of_stored Z _ 5%Z (mkTree tree_12345 5) Hx).
Defined.

(** X4. For a stored element, [height] returns the number of edges from a
    node at which the element is first met on the way down to a deepest
    node below it, and of all such nodes one with the largest number. *)
Theorem height_of_stored :
  forall (T : Type) (EqT : EqDecision T) (x : T) (b : BinaryTree T),
    stored x (root b) ->
    exists p,
      first_hit (root b) x p /\
      height x b = (Z.of_nat (levels (deref (root b) p)) - 1)%Z /\
      forall q, first_hit (root b) x q ->
        (levels (deref (root b) q) <= levels (deref (root b) p))%nat.
Proof.
  intros T EqT x b Hx. rewrite height_getHeight.
  destruct (getHeight_spec (root b) x) as [[Hn _]|(p & Hp & Hd & Hm)];
    [contradiction|].
  exists p. split_and!; assumption.
Qed.

Lemma height_of_stored_witness :
  stored 2%Z tree_12345 /\
  exists p,
    first_hit tree_12345 2%Z p /\
    height 2%Z (mkTree tree_12345 5) = (Z.of_nat (levels (deref tree_12345 p)) - 1)%Z /\
    forall q, first_hit tree_12345 2%Z q ->
      (levels (deref tree_12345 q) <= levels (deref tree_12345 p))%nat.
Proof.
  assert (Hx : stored 2%Z tree_12345) by (simpl; auto 10).
  split; [exact Hx|]. exact (height_of_stored Z _ 2%Z (mkTree tree_12345 5) Hx).
Defined.

(** X5. [insert] always returns.  Either the element was stored and the
    object is returned as it was, or a new leaf holding the element is hung
    into an empty slot, nothing else moves and the size grows by one.
    Afterwards both searches find the element, and the stored elements are
    the former ones and the inserted one. *)
Theorem insert_then_search :
  forall (T : Type) (EqT : EqDecision T) (x : T) (b : BinaryTree T),
    exists b',
      insert x b = Ok b' /\
      ((stored x (root b) /\ b' = b) \/
       (exists s,
           deref (root b) s = nullptr /\
           root b' = store (root b) s (Node x nullptr nullptr) /\
           size b' = (size b + 1)%Z /\
           forall q, elem_at (root b') q =
                     if decide (q = s) then Some x else elem_at (root b) q)) /\
      bfsearch x b' = Ok true /\
      dfsearch x b' = Ok true /\
      forall y, stored y (root b') <-> y = x \/ stored y (root b).
Proof.
  intros T EqT x b. destruct (insert_cases x b) as [[Hx Hr]|(s & Hs & Hn & Hr)].
  - exists b. rewrite bfsearch_spec, dfsearch_spec.
    rewrite bool_decide_eq_true_2 by exact Hx.
    split_and!; [exact Hr|left; auto|reflexivity|reflexivity|].
    intros y. split; [tauto|]. intros [->|Hy]; assumption.
  - eexists. split; [exact Hr|]. rewrite bfsearch_spec, dfsearch_spec. simpl.
    assert (Hst : forall y, stored y (store (root b) s (Node x nullptr nullptr)) <->
                            y = x \/ stored y (root b))
      by (intros y; apply stored_store_leaf; assumption).
    rewrite bool_decide_eq_true_2 by (apply Hst; left; reflexivity).
    split_and!; [|reflexivity|reflexivity|exact Hst].
    right. exists s. split_and!; [exact Hn|reflexivity|reflexivity|].
    intros q. apply elem_at_store_leaf; assumption.
Qed.

(** X6. Into a tree that has a root and does not store the element,
    [insert] hangs the new leaf at the first empty child slot in level
    order, whatever the shape of the tree. *)
Theorem insert_at_first_free_slot :
  forall (T : Type) (EqT : EqDecision T) (x : T) (b : BinaryTree T),
    root b <> nullptr -> ~ stored x (root b) ->
    exists s,
      first_free (root b) = Some s /\
      deref (root b) s = nullptr /\
      insert x b =
        Ok (mkTree (store (root b) s (Node x nullptr nullptr)) (treeSize b + 1)) /\
      forall q, elem_at (store (root b) s (Node x nullptr nullptr)) q =
                if decide (q = s) then Some x else elem_at (root b) q.
Proof.
  intros T EqT x b Ht Hx. destruct (insert_first_free x b Ht Hx) as (s & Hs & Hr).
  destruct (first_free_slot _ _ Hs) as [Hse Hn].
  exists s. split_and!; [exact Hs|exact Hn|exact Hr|].
  intros q. apply elem_at_store_leaf; assumption.
Qed.

Lemma insert_at_first_free_slot_witness :
  tree_1_2 <> nullptr /\ ~ stored 7%Z tree_1_2 /\
  exists s,
    first_free tree_1_2 = Some s /\
    deref tree_1_2 s = nullptr /\
    insert 7%Z (mkTree tree_1_2 2) =
      Ok (mkTree (store tree_1_2 s (Node 7%Z nullptr nullptr)) (2 + 1)) /\
    forall q, elem_at (store tree_1_2 s (Node 7%Z nullptr nullptr)) q =
              if decide (q = s) then Some 7%Z else elem_at tree_1_2 q.
Proof.
  assert (Ht : tree_1_2 <> nullptr) by discriminate.
  assert (Hx : ~ stored 7%Z tree_1_2) by (simpl; lia).
  split_and!; [exact Ht|exact Hx|].
  exact (insert_at_first_free_slot Z _ 7%Z (mkTree tree_1_2 2) Ht Hx).
Defined.

(** X7. Any sequence of [insert] calls on the empty tree, repetitions
    included, gives the complete tree of the distinct elements in the order
    of their first occurrence; the size is their number. *)
Theorem inserts_with_repetitions :
  forall (T : Type) (EqT : EqDecision T) (xs : list T),
    exists t,
      inserts xs empty_tree =
        Ok (mkTree t (Z.of_nat (length (first_occurrences xs)))) /\
      nodes t = length (first_occurrences xs) /\
      complete_with t (first_occurrences xs) /\
      NoDup (first_occurrences xs) /\
      forall x, x ∈ first_occurrences xs <-> x ∈ xs.
Proof.
  intros T EqT xs. destruct (inserts_first_occurrences xs) as (t & Hi & Hn & Hc).
  exists t. split_and!; [exact Hi|exact Hn|exact Hc| |].
  - apply NoDup_first_occurrences.
  - intros x. apply elem_of_first_occurrences.
Qed.

(** X8. [remove] of a stored element always returns; every other element
    is stored afterwards exactly if it was stored before, and where the
    element was held by one node only it is no longer stored and
    [bfsearch] does not find it. *)
Theorem remove_takes_out_the_element :
  forall (T : Type) (EqT : EqDecision T) (x : T) (b : BinaryTree T),
    stored x (root b) ->
    exists b',
      remove x b = Ok b' /\
      (forall y, y <> x -> stored y (root b') <-> stored y (root b)) /\
      ((forall q1 q2, holds (root b) x q1 -> holds (root b) x q2 -> q1 = q2) ->
       ~ stored x (root b') /\ bfsearch x b' = Ok false).
Proof.
  intros T EqT x b Hx. destruct (remove_stored x b Hx) as (b' & Hr & Hy & Hu).
  exists b'. split_and!; [exact Hr|exact Hy|].
  intros Huniq. specialize (Hu Huniq). split; [exact Hu|].
  rewrite bfsearch_spec, bool_decide_eq_false_2 by exact Hu. reflexivity.
Qed.

Lemma remove_takes_out_the_element_witness :
  stored 1%Z tree_1_2 /\
  exists b',
    remove 1%Z (mkTree tree_1_2 2) = Ok b' /\
    (forall y, y <> 1%Z -> stored y (root b') <-> stored y tree_1_2) /\
    ((forall q1 q2, holds tree_1_2 1%Z q1 -> holds tree_1_2 1%Z q2 -> q1 = q2) ->
     ~ stored 1%Z (root b') /\ bfsearch 1%Z b' = Ok false).
Proof.
  assert (Hx : stored 1%Z tree_1_2) by (simpl; auto).
  split; [exact Hx|].
  exact (remove_takes_out_the_element Z _ 1%Z (mkTree tree_1_2 2) Hx).
Defined.

(** X9. After inserting distinct elements [xs] into the empty tree,
    [remove] of the element at position [j] leaves the complete tree of
    [xs] with its last element moved to position [j] and the last position
    dropped; the size is one less and the element is no longer stored. *)
Theorem remove_after_inserts :
  forall (T : Type) (EqT : EqDecision T) (xs : list T) (x e : T) (j : nat),
    NoDup xs -> xs !! j = Some x -> last xs = Some e ->
    exists t',
      (do b <- inserts xs empty_tree; remove x b) =
        Ok (mkTree t' (Z.of_nat (length xs - 1))) /\
      nodes t' = (length xs - 1)%nat /\
      complete_with t' (take (length xs - 1) (<[j:=e]> xs)) /\
      ~ stored x t'.
Proof.
  intros T EqT xs x e j Hnd Hj He.
  destruct (inserts_distinct xs Hnd) as (t & Hi & Hn & Hc).
  destruct (remove_complete t xs x e j Hc Hn Hnd Hj He) as (t' & Hr & Hn' & Hc').
  exists t'. rewrite Hi. simpl. split_and!; [exact Hr|exact Hn'|exact Hc'|].
  intros Hx. apply (complete_stored _ _ _ Hc') in Hx.
  apply list_elem_of_lookup in Hx as [i Hi'].
  pose proof (lookup_lt_Some _ _ _ Hi') as Hlt. rewrite length_take in Hlt.
  rewrite lookup_take_lt in Hi' by lia. rewrite list_lookup_insert in Hi'.
  rewrite last_lookup in He. pose proof (lookup_lt_Some _ _ _ Hj).
  case_decide as Hij.
  - injection Hi' as ->. pose proof (NoDup_lookup _ _ _ _ Hnd He Hj). lia.
  - pose proof (NoDup_lookup _ _ _ _ Hnd Hi' Hj) as ->. apply Hij. split; [reflexivity|lia].
Qed.

Lemma remove_after_inserts_witness :
  NoDup [1; 2; 3; 4; 5]%Z /\ [1; 2; 3; 4; 5]%Z !! 1%nat = Some 2%Z /\
  last [1; 2; 3; 4; 5]%Z = Some 5%Z /\
  exists t',
    (do b <- inserts [1; 2; 3; 4; 5]%Z empty_tree; remove 2%Z b) =
      Ok (mkTree t' (Z.of_nat (length [1; 2; 3; 4; 5]%Z - 1))) /\
    nodes t' = (length [1; 2; 3; 4; 5]%Z - 1)%nat /\
    complete_with t' (take (length [1; 2; 3; 4; 5]%Z - 1)
                        (<[1%nat:=5%Z]> [1; 2; 3; 4; 5]%Z)) /\
    ~ stored 2%Z t'.
Proof.
  assert (Hnd : NoDup [1; 2; 3; 4; 5]%Z)
    by (exact (bool_decide_unpack (NoDup [1; 2; 3; 4; 5]%Z) I)).
  split_and!; [exact Hnd|reflexivity|reflexivity|].
  exact (remove_after_inserts Z _ [1; 2; 3; 4; 5]%Z 2%Z 5%Z 1%nat Hnd eq_refl eq_refl).
Defined.

(** X10. After inserting distinct elements into the empty tree, the element
    inserted as number [j + 1] lies at depth [log2 (j + 1)]. *)
Theorem depth_after_inserts :
  forall (T : Type) (EqT : EqDecision T) (xs : list T) (x : T) (j : nat),
    NoDup xs -> xs !! j = Some x ->
    exists b,
      inserts xs empty_tree = Ok b /\
      depth x b = Z.of_nat (Nat.log2 (S j)).
Proof.
  intros T EqT xs x j Hnd Hj.
  destruct (inserts_distinct xs Hnd) as (t & Hi & Hn & Hc).
  eexists. split; [exact Hi|].
  destruct (complete_address t xs x j Hc Hn Hnd Hj) as (p & Hp & Hh & Hu).
  rewrite (depth_unique x (mkTree t _) p Hh Hu), <- Hp, log2_index. reflexivity.
Qed.

Lemma depth_after_inserts_witness :
  NoDup [1; 2; 3; 4; 5]%Z /\ [1; 2; 3; 4; 5]%Z !! 4%nat = Some 5%Z /\
  exists b,
    inserts [1; 2; 3; 4; 5]%Z empty_tree = Ok b /\
    depth 5%Z b = Z.of_nat (Nat.log2 5).
Proof.
  assert (Hnd : NoDup [1; 2; 3; 4; 5]%Z)
    by (exact (bool_decide_unpack (NoDup [1; 2; 3; 4; 5]%Z) I)).
  split_and!; [exact Hnd|reflexivity|].
  exact (depth_after_inserts Z _ [1; 2; 3; 4; 5]%Z 5%Z 4%nat Hnd eq_refl).
Defined.

(** X11. [printInorder] writes the root element, then the elements in
    inorder, separated by a comma and a blank, in parentheses, and a
    newline; [operator<<] on a tree writes the same text without the
    newline.  For the empty tree both write the empty parentheses. *)
Theorem printInorder_text :
  forall (T : Type) (show : T -> string) (b : BinaryTree T),
    printInorder show b =
      match root b with
      | nullptr => "()" +:+ endl
      | Node e _ _ =>
          "[root: " +:+ show e +:+ "]" +:+ tab +:+ "(" +:+
          join (show <$> inorder (root b)) +:+ ")" +:+ endl
      end /\
    stream_tree show b +:+ endl = printInorder show b.
Proof.
  intros T show b. unfold printInorder, stream_tree.
  rewrite print_inorder, stream_node_inorder.
  destruct (root b); [split; reflexivity|].
  split; [reflexivity|]. rewrite !string_app_assoc. reflexivity.
Qed.

(** X12. [printPreorder] writes the root element, then the elements in
    preorder, separated by a comma and a blank, in parentheses, and a
    newline. *)
Theorem printPreorder_text :
  forall (T : Type) (show : T -> string) (b : BinaryTree T),
    printPreorder show b =
      match root b with
      | nullptr => "()" +:+ endl
      | Node e _ _ =>
          "[root: " +:+ show e +:+ "]" +:+ tab +:+ "(" +:+
          join (show <$> preorder (root b)) +:+ ")" +:+ endl
      end.
Proof.
  intros T show b. unfold printPreorder. rewrite print_preorder. reflexivity.
Qed.

(** X13. On a tree in which no node has a right child without a left child,
    [printPostorder] writes the root element, then the elements in
    postorder, separated by a comma and a blank, in parentheses, and a
    newline. *)
Theorem printPostorder_text :
  forall (T : Type) (show : T -> string) (b : BinaryTree T),
    no_right_only (root b) ->
    printPostorder show b =
      match root b with
      | nullptr => "()" +:+ endl
      | Node e _ _ =>
          "[root: " +:+ show e +:+ "]" +:+ tab +:+ "(" +:+
          join (show <$> postorder (root b)) +:+ ")" +:+ endl
      end.
Proof.
  intros T show b Hb. unfold printPostorder.
  rewrite print_postorder by exact Hb. reflexivity.
Qed.

Lemma printPostorder_text_witness :
  no_right_only tree_12345 /\
  printPostorder (fun z : Z => if decide (z = 1%Z) then "one" else "more")
      (mkTree tree_12345 5) =
    "[root: " +:+ "one" +:+ "]" +:+ tab +:+ "(" +:+
    join ((fun z : Z => if decide (z = 1%Z) then "one" else "more")
            <$> postorder tree_12345) +:+ ")" +:+ endl.
Proof.
  assert (Hb : no_right_only tree_12345) by (simpl; intuition discriminate).
  split; [exact Hb|].
  exact (printPostorder_text Z _ (mkTree tree_12345 5) Hb).
Defined.

(** X14. After any sequence of [insert] calls on the empty tree,
    [printPostorder] writes the elements in postorder. *)
Theorem printPostorder_after_inserts :
  forall (T : Type) (EqT : EqDecision T) (show : T -> string) (xs : list T),
    exists b,
      inserts xs empty_tree = Ok b /\
      printPostorder show b =
        match root b with
        | nullptr => "()" +:+ endl
        | Node e _ _ =>
            "[root: " +:+ show e +:+ "]" +:+ tab +:+ "(" +:+
            join (show <$> postorder (root b)) +:+ ")" +:+ endl
        end.
Proof.
  intros T EqT show xs.
  destruct (inserts_first_occurrences xs) as (t & Hi & _ & Hc).
  eexists. split; [exact Hi|]. unfold printPostorder. simpl.
  rewrite print_postorder by (eapply complete_no_right_only; exact Hc).
  reflexivity.
Qed.

(** X15. Given a tree with a root, the copy constructor builds a tree of
    the same shape holding the same elements and counts its nodes; if the
    source is size consistent the copy equals it, and clearing the source
    afterwards leaves the copy as it is. *)
Theorem copy_ctor_of_rooted_tree :
  forall (T : Type) (EqT : EqDecision T) (a : BinaryTree T),
    root a <> nullptr ->
    copy_ctor a = Ok (mkTree (root a) (Z.of_nat (nodes (root a)))) /\
    (size_consistent a ->
     (do b <- copy_ctor a; Ok (clear a, b)) = Ok (empty_tree, a)).
Proof.
  intros T EqT a Ha. split; [apply copy_ctor_spec; exact Ha|].
  intros Hs. apply copy_ctor_round_trip; assumption.
Qed.

Lemma copy_ctor_of_rooted_tree_witness :
  tree_1_2 <> nullptr /\
  copy_ctor (mkTree tree_1_2 2) = Ok (mkTree tree_1_2 (Z.of_nat (nodes tree_1_2))) /\
  (size_consistent (mkTree tree_1_2 2) ->
   (do b <- copy_ctor (mkTree tree_1_2 2); Ok (clear (mkTree tree_1_2 2), b)) =
     Ok (empty_tree, mkTree tree_1_2 2)).
Proof.
  assert (Ha : tree_1_2 <> nullptr) by discriminate.
  split; [exact Ha|]. exact (copy_ctor_of_rooted_tree Z _ (mkTree tree_1_2 2) Ha).
Defined.

(** X16. Given a tree with a root, the move constructor builds a tree of
    the same shape holding the same elements, counts its nodes, and leaves
    the source empty. *)
Theorem move_ctor_of_rooted_tree :
  forall (T : Type) (EqT : EqDecision T) (a : BinaryTree T),
    root a <> nullptr ->
    exists b a',
      move_ctor a = Ok (b, a') /\
      root b = root a /\ size b = Z.of_nat (nodes (root a)) /\
      root a' = nullptr /\ size a' = 0%Z /\ empty a' = true.
Proof.
  intros T EqT a Ha. eexists _, _. split; [apply move_ctor_spec; exact Ha|].
  split_and!; reflexivity.
Qed.

Lemma move_ctor_of_rooted_tree_witness :
  tree_1_2 <> nullptr /\
  exists b a',
    move_ctor (mkTree tree_1_2 2) = Ok (b, a') /\
    root b = tree_1_2 /\ size b = Z.of_nat (nodes tree_1_2) /\
    root a' = nullptr /\ size a' = 0%Z /\ empty a' = true.
Proof.
  assert (Ha : tree_1_2 <> nullptr) by discriminate.
  split; [exact Ha|]. exact (move_ctor_of_rooted_tree Z _ (mkTree tree_1_2 2) Ha).
Defined.

(** X17. Copy assignment from a tree with a root replaces the object,
    whatever it held, by a tree of the shape and elements of the source
    with its nodes counted; from an empty source it dereferences
    [nullptr], as the copy constructor it calls does. *)
Theorem copy_assign_from :
  forall (T : Type) (EqT : EqDecision T) (this a : BinaryTree T),
    (root a <> nullptr ->
     copy_assign this a = Ok (mkTree (root a) (Z.of_nat (nodes (root a))))) /\
    (root a = nullptr -> copy_assign this a = Fault).
Proof.
  intros T EqT this a. split; [apply copy_assign_spec|apply copy_assign_empty].
Qed.

Lemma copy_assign_from_witness :
  tree_1_2 <> nullptr /\
  copy_assign (mkTree tree_12345 5) (mkTree tree_1_2 2) =
    Ok (mkTree tree_1_2 (Z.of_nat (nodes tree_1_2))).
Proof.
  assert (Ha : tree_1_2 <> nullptr) by discriminate.
  split; [exact Ha|].
  exact (proj1 (copy_assign_from Z _ (mkTree tree_12345 5) (mkTree tree_1_2 2)) Ha).
Defined.

(** * Stack.hpp *)

Section StackFacts.
Context {T : Type}.
Implicit Types (c below : Stack.chain T) (s : Stack.Stack T) (xs : list T).

Lemma stack_onto_nullptr c : Stack.onto c Stack.nullptr = c.
Proof. induction c as [|d c IH]; simpl; congruence. Qed.

Lemma stack_onto_assoc c1 c2 c3 :
  Stack.onto (Stack.onto c1 c2) c3 = Stack.onto c1 (Stack.onto c2 c3).
Proof. induction c1 as [|d c1 IH]; simpl; congruence. Qed.

Lemma stack_elements_onto c below :
  Stack.elements (Stack.onto c below) = Stack.elements c ++ Stack.elements below.
Proof. induction c as [|d c IH]; simpl; congruence. Qed.

(** Writing to the slot below the last node of a chain appends. *)
Lemma stack_store_end c below :
  Stack.store c (length (Stack.elements c)) below = Stack.onto c below.
Proof. induction c as [|d c IH]; simpl; congruence. Qed.

(** The loop of the copy constructor appends the source chain, node by
    node, to what it has built. *)
Lemma stack_copy_loop_spec (copyNode top : Stack.chain T) (n : Z) :
  Stack.copy_loop copyNode top (length (Stack.elements top)) n =
    Stack.mkStack (Stack.onto top copyNode)
      (n + Z.of_nat (length (Stack.elements copyNode))).
Proof.
  revert top n. induction copyNode as [|d c IH]; intros top n.
  - simpl. rewrite stack_onto_nullptr. f_equal. lia.
  - cbn [Stack.copy_loop]. rewrite stack_store_end.
    replace (S (length (Stack.elements top)))
      with (length (Stack.elements (Stack.onto top (Stack.Node d Stack.nullptr))))
      by (rewrite stack_elements_onto, length_app; simpl; lia).
    rewrite IH, stack_onto_assoc. simpl. f_equal. lia.
Qed.

Lemma stack_move_loop_copy_loop (moveNode top : Stack.chain T) k (n : Z) :
  Stack.move_loop moveNode top k n = Stack.copy_loop moveNode top k n.
Proof.
  revert top k n. induction moveNode as [|d c IH]; intros top k n; [reflexivity|].
  simpl. apply IH.
Qed.

Lemma stack_pushes_snoc xs x s :
  Stack.pushes (xs ++ [x]) s = Stack.push x (Stack.pushes xs s).
Proof. unfold Stack.pushes. rewrite foldl_snoc. reflexivity. Qed.

Lemma stack_pop_push x s : Stack.pop (Stack.push x s) = (Stack.Returns x, s).
Proof.
  destruct s as [c n]. unfold Stack.pop, Stack.push. simpl. do 2 f_equal. lia.
Qed.

Lemma stack_pops_pushes xs s :
  Stack.pops (length xs) (Stack.pushes xs s) = (Stack.Returns <$> reverse xs, s).
Proof.
  induction xs as [|x xs IH] using rev_ind; [reflexivity|].
  rewrite stack_pushes_snoc, length_app, Nat.add_1_r, reverse_snoc.
  cbn [Stack.pops]. rewrite stack_pop_push, IH. reflexivity.
Qed.

Lemma stack_pops_app n m s :
  Stack.pops (n + m) s =
    let '(os, s1) := Stack.pops n s in
    let '(os', s2) := Stack.pops m s1 in
    (os ++ os', s2).
Proof.
  revert s. induction n as [|n IH]; intros s.
  - simpl. destruct (Stack.pops m s). reflexivity.
  - cbn [Nat.add Stack.pops]. destruct (Stack.pop s) as [o s1]. rewrite IH.
    destruct (Stack.pops n s1) as [os s2]. destruct (Stack.pops m s2). reflexivity.
Qed.

Lemma stack_elements_nonempty (show : T -> string) d c :
  show <$> reverse (Stack.elements (Stack.Node d c)) <> [].
Proof.
  simpl. rewrite reverse_cons, fmap_app. intros Heq.
  apply (f_equal length) in Heq. rewrite length_app in Heq. simpl in Heq. lia.
Qed.

(** [operator<<] on a node writes the chain from the bottom up. *)
Lemma stack_stream_node (show : T -> string) c :
  Stack.stream_node show c = join (show <$> reverse (Stack.elements c)).
Proof.
  induction c as [|d c IH]; [reflexivity|].
  cbn [Stack.stream_node Stack.elements]. rewrite reverse_cons, fmap_app.
  destruct c as [|d' c]; [reflexivity|].
  rewrite IH, join_app; [reflexivity|apply stack_elements_nonempty|discriminate].
Qed.

End StackFacts.

(** X18. Popping as often as was pushed returns the pushed elements, last
    pushed first, and leaves the stack as it was before the pushes; on a
    stack that was empty to begin with, one more [pop] throws
    [std::underflow_error] and leaves the stack empty. *)
Theorem stack_push_pop_lifo :
  forall (T : Type) (xs : list T) (s : Stack.Stack T),
    Stack.pops (length xs) (Stack.pushes xs s) = (Stack.Returns <$> reverse xs, s) /\
    Stack.size (Stack.pushes xs s) = (Stack.size s + Z.of_nat (length xs))%Z /\
    Stack.pops (S (length xs)) (Stack.pushes xs Stack.empty_stack) =
      ((Stack.Returns <$> reverse xs) ++
         [Stack.Throws_underflow_error "Stack is Empty"],
       Stack.empty_stack).
Proof.
  intros T xs s. split_and!.
  - apply stack_pops_pushes.
  - induction xs as [|x xs IH] using rev_ind; [unfold Stack.size; simpl; lia|].
    rewrite stack_pushes_snoc, length_app. unfold Stack.size in *. simpl.
    rewrite IH. lia.
  - rewrite <- Nat.add_1_r, stack_pops_app, stack_pops_pushes. reflexivity.
Qed.

(** X19. The copy constructor and the move constructor of the stack accept
    every stack, the empty one included: the new stack has the chain of the
    source and its nodes counted, and the move constructor leaves the
    source empty. *)
Theorem stack_copy_move_ctor :
  forall (T : Type) (s : Stack.Stack T),
    Stack.copy_ctor s =
      Stack.mkStack (Stack.top s) (Z.of_nat (length (Stack.elements (Stack.top s)))) /\
    Stack.move_ctor s =
      (Stack.mkStack (Stack.top s) (Z.of_nat (length (Stack.elements (Stack.top s)))),
       Stack.empty_stack) /\
    Stack.copy_ctor Stack.empty_stack = @Stack.empty_stack T.
Proof.
  intros T s. split_and!; [| |reflexivity].
  - apply (stack_copy_loop_spec (Stack.top s) Stack.nullptr 0%Z).
  - unfold Stack.move_ctor. f_equal.
    etransitivity; [apply stack_move_loop_copy_loop|].
    apply (stack_copy_loop_spec (Stack.top s) Stack.nullptr 0%Z).
Qed.

(** X20. [operator<<] on a stack writes, in parentheses, the elements from
    the bottom of the stack to its top, separated by a comma and a blank;
    the empty parentheses for the empty stack. *)
Theorem stack_stream_bottom_to_top :
  forall (T : Type) (show : T -> string) (s : Stack.Stack T),
    Stack.stream_stack show s =
      "(" +:+ join (show <$> reverse (Stack.elements (Stack.top s))) +:+ ")".
Proof.
  intros T show s. unfold Stack.stream_stack. rewrite <- stack_stream_node.
  destruct (Stack.top s); reflexivity.
Qed.
